(** * redis-clone: RESP codec, command handlers and append-only log

    A shallow embedding of the three Go source files of the repository
    ([resp.go], [handler.go] with the append-only file, [main.go]) and the
    properties of the specification checked against it.

    Conventions of the embedding:
    - a Go [string] is a [string]; a Go [[]byte] is a [list ascii]; the
      conversions [[]byte(s)] and [string(b)] are [list_ascii_of_string]
      and [string_of_list_ascii];
    - a Go [int] is a [Z] (64-bit platform; the only integers the program
      computes are lengths and the results of [strconv.ParseInt], which are
      range-checked there);
    - a Go [map] is a [gmap];
    - a function returning [(T, error)] returns a pair with an
      [option error]; a run-time panic is the outcome [Panic];
    - loops and the recursion of the decoder are bounded by a [fuel]
      argument; running out of it is the outcome [OutOfFuel], which is an
      artefact of the embedding and never a behaviour of the program. *)

From Stdlib Require Import ZArith Lia List Ascii String.
From stdpp Require Import base gmap strings list fin_maps.

Local Open Scope Z_scope.
Local Open Scope list_scope.

(** ** Bytes and errors *)

Abbreviation bytes := (list ascii).

Definition CR : ascii := "013"%char.
Definition LF : ascii := "010"%char.
Definition NUL : ascii := "000"%char.

(** [[]byte(s)] and [string(b)]. *)
Notation "'b(' s ')'" := (list_ascii_of_string s) (format "'b(' s ')'").
Notation "'s(' l ')'" := (string_of_list_ascii l) (format "'s(' l ')'").

(** The error values the program can observe: [io.EOF], the two errors of
    [strconv.ParseInt], [io.ErrNoProgress], and [ErrIO] for any other
    failure reported by a file or a connection. *)
Inductive error : Type :=
| io_EOF
| ErrSyntax
| ErrRange
| io_ErrNoProgress
| ErrIO.

Definition error_eqb (a b : error) : bool :=
  match a, b with
  | io_EOF, io_EOF | ErrSyntax, ErrSyntax | ErrRange, ErrRange
  | io_ErrNoProgress, io_ErrNoProgress | ErrIO, ErrIO => true
  | _, _ => false
  end.

(** Outcome of a call that threads a state of type [St]. *)
Inductive outcome (St A : Type) : Type :=
| Done (a : A) (st : St)
| Panic (msg : string)
| OutOfFuel.
Arguments Done {St A} a st.
Arguments Panic {St A} msg.
Arguments OutOfFuel {St A}.

Definition bind {St A B} (m : outcome St A) (k : A -> St -> outcome St B)
  : outcome St B :=
  match m with
  | Done a st => k a st
  | Panic msg => Panic msg
  | OutOfFuel => OutOfFuel
  end.

Notation "'call' p 'at' st := m 'in' k" := (bind m (fun p st => k))
  (at level 10, p pattern, st name, m at level 100, k at level 200,
   format "'[v' 'call'  p  'at'  st  :=  m  'in' '/' k ']'").

(** ** resp.go: the value model *)

(** First byte of each RESP data type. *)
Definition FB_SIMPLE_STRING : ascii := "+"%char.
Definition FB_SIMPLE_ERROR : ascii := "-"%char.
Definition FB_INTEGER : ascii := ":"%char.
Definition FB_BULK_STRING : ascii := "$"%char.
Definition FB_ARRAY : ascii := "*"%char.

(** [type ValueTyp string] and its six constants. *)
Definition ValueTyp : Type := string.
Definition ValueTypSimpleString : ValueTyp := "SIMPLE_STRING".
Definition ValueTypSimpleError : ValueTyp := "SIMPLE_ERROR".
Definition ValueTypInteger : ValueTyp := "INTEGER".
Definition ValueTypBulkString : ValueTyp := "BULK_STRING".
Definition ValueTypArray : ValueTyp := "ARRAY".
Definition ValueTypNull : ValueTyp := "NULL".

(** [type Value struct]. *)
#[warnings="-register-all"]
Inductive Value : Type :=
  mkValue { typ : ValueTyp; str : string; num : Z; bulk : string;
            array : list Value }.

(** The zero value [Value{}]. *)
Definition Value_zero : Value := mkValue "" "" 0 "" [].

(** Composite literals [Value{typ: t, str: s}], [Value{typ: t, bulk: b}],
    [Value{typ: t, array: a}] and [Value{typ: t}]. *)
Definition Value_str (t : ValueTyp) (s : string) : Value := mkValue t s 0 "" [].
Definition Value_bulk (t : ValueTyp) (b : string) : Value := mkValue t "" 0 b [].
Definition Value_array (t : ValueTyp) (a : list Value) : Value := mkValue t "" 0 "" a.
Definition Value_typ (t : ValueTyp) : Value := mkValue t "" 0 "" [].

(** Induction over values and, at the same time, over their elements. *)
Section Value_ind_nested.
Variable P : Value -> Prop.
Hypothesis step : forall t s n b a, Forall P a -> P (mkValue t s n b a).

Fixpoint Value_ind_nested (v : Value) : P v :=
  match v with
  | mkValue t s n b a =>
      step t s n b a
        ((fix elems (l : list Value) : Forall P l :=
            match l with
            | [] => @List.Forall_nil _ P
            | x :: l' =>
                @List.Forall_cons _ P x l' (Value_ind_nested x) (elems l')
            end) a)
  end.
End Value_ind_nested.

(** ** strconv: [Itoa] and [ParseInt] in base 10 on 64 bits *)

Definition digit_of (d : Z) : ascii := ascii_of_N (48 + Z.to_N d).

Definition is_digit (c : ascii) : bool :=
  ((48 <=? N_of_ascii c) && (N_of_ascii c <=? 57))%N.

Definition digit_val (c : ascii) : Z := Z.of_N (N_of_ascii c) - 48.

(** The decimal digits of [n >= 0], most significant first, in front of
    [acc]: the loop of [strconv.formatBits] that fills its buffer from the
    right. Twenty digits are enough for 64 bits. *)
Fixpoint format_digits (fuel : nat) (n : Z) (acc : bytes) : bytes :=
  let acc' := digit_of (n mod 10) :: acc in
  match fuel with
  | O => acc'
  | S f => if n <? 10 then acc' else format_digits f (n / 10) acc'
  end.

(** [strconv.Itoa(i)]. *)
Definition Itoa (i : Z) : string :=
  if i <? 0 then s("-"%char :: format_digits 20 (- i) [])
  else s(format_digits 20 i []).

Definition maxUint64 : Z := 2 ^ 64 - 1.

(** The digit loop of [strconv.ParseUint(s, 10, 64)] from the accumulator
    [n]: a byte that is no decimal digit is a syntax error, an overflow a
    range error, whichever the loop meets first. *)
Fixpoint ParseUint_loop (s : bytes) (n : Z) : Z * option error :=
  match s with
  | [] => (n, None)
  | c :: s' =>
      if is_digit c then
        if maxUint64 / 10 + 1 <=? n then (maxUint64, Some ErrRange)
        else
          let n1 := n * 10 + digit_val c in
          if maxUint64 <? n1 then (maxUint64, Some ErrRange)
          else ParseUint_loop s' n1
      else (0, Some ErrSyntax)
  end.

Definition ParseUint (s : bytes) : Z * option error :=
  match s with
  | [] => (0, Some ErrSyntax)
  | _ => ParseUint_loop s 0
  end.

(** [strconv.ParseInt(s, 10, 64)]. *)
Definition ParseInt (s : string) : Z * option error :=
  match b(s) with
  | [] => (0, Some ErrSyntax)
  | c :: rest =>
      let neg := Ascii.eqb c "-" in
      let digits := if Ascii.eqb c "+" || neg then rest else c :: rest in
      let cutoff := 2 ^ 63 in
      match ParseUint digits with
      | (_, Some ErrSyntax) => (0, Some ErrSyntax)
      | (un, _) =>
          if negb neg && (cutoff <=? un) then (cutoff - 1, Some ErrRange)
          else if neg && (cutoff <? un) then (- cutoff, Some ErrRange)
          else (if neg then - un else un, None)
      end
  end.

(** ** resp.go: the encoder *)

Definition marshalSimpleString (v : Value) : bytes :=
  [FB_SIMPLE_STRING] ++ (b(str v) ++ [CR; LF]).

Definition marshalBulkString (v : Value) : bytes :=
  (([FB_BULK_STRING] ++ b(Itoa (Z.of_nat (String.length (bulk v))))) ++ [CR; LF])
    ++ (b(bulk v) ++ [CR; LF]).

Definition marshalError (v : Value) : bytes :=
  [FB_SIMPLE_ERROR] ++ (b(str v) ++ [CR; LF]).

Definition marshalNull (v : Value) : bytes := b("$-1" +:+ s([CR; LF])).

(** [marshalArray], with the call [val.Marshal()] of its loop as [rec]. *)
Definition marshalArray (rec : Value -> bytes) (v : Value) : bytes :=
  let bytes0 := [FB_ARRAY] ++ b(Itoa (Z.of_nat (length (array v)))) in
  let bytes1 := bytes0 ++ [CR; LF] in
  fold_left (fun acc val => acc ++ rec val) (array v) bytes1.

(** [Value.Marshal]. *)
Fixpoint Marshal (v : Value) : bytes :=
  if String.eqb (typ v) ValueTypArray then marshalArray Marshal v
  else if String.eqb (typ v) ValueTypBulkString then marshalBulkString v
  else if String.eqb (typ v) ValueTypSimpleString then marshalSimpleString v
  else if String.eqb (typ v) ValueTypNull then marshalNull v
  else if String.eqb (typ v) ValueTypSimpleError then marshalError v
  else [].

(** ** bufio.Reader over a file or a connection *)

(** The underlying [io.Reader] (an [os.File] or a [net.Conn]): the data it
    will deliver, in the pieces in which it delivers them, and the error it
    reports once they are used up ([io.EOF] at the end of a file or of a
    closed connection). A file delivers its whole content as one piece; a
    connection delivers what has arrived so far. Empty pieces are skipped:
    neither kind of reader returns [0, nil]. *)
Record Source : Type := { chunks : list bytes; final : error }.

(** One [Read(p)] of the underlying reader with [len(p) = cap > 0]: at most
    [cap] bytes of the next piece. *)
Fixpoint Source_Read (cap : nat) (cs : list bytes) : option (bytes * list bytes) :=
  match cs with
  | [] => None
  | [] :: cs' => Source_Read cap cs'
  | c :: cs' =>
      Some (take cap c, match drop cap c with [] => cs' | c' => c' :: cs' end)
  end.

(** [bufio.Reader]: the bytes buffered and not yet consumed
    ([b.buf[b.r:b.w]]) and the underlying reader. [bufio.NewReader] gives
    the buffer [defaultBufSize = 4096] bytes. *)
Record Reader : Type := { pending : bytes; src : Source }.

Definition bufSize : nat := 4096.

Definition with_chunks (s : Source) (cs : list bytes) : Source :=
  {| chunks := cs; final := final s |}.

(** [NewResp(rd)]: the parser is its buffered reader. *)
Definition NewResp (rd : Source) : Reader := {| pending := []; src := rd |}.

(** A file with content [data], read from its start. *)
Definition file_Source (data : bytes) : Source :=
  {| chunks := [data]; final := io_EOF |}.

(** [bufio.Reader.ReadByte]: the next buffered byte; an empty buffer is
    first filled by one read of the underlying reader. *)
Definition ReadByte (r : Reader) : (ascii * option error) * Reader :=
  match pending r with
  | c :: p => ((c, None), {| pending := p; src := src r |})
  | [] =>
      match Source_Read bufSize (chunks (src r)) with
      | None => ((NUL, Some (final (src r))), r)
      | Some (c :: p, cs) =>
          ((c, None), {| pending := p; src := with_chunks (src r) cs |})
      | Some ([], cs) =>
          ((NUL, Some io_ErrNoProgress),
           {| pending := []; src := with_chunks (src r) cs |})
      end
  end.

(** [bufio.Reader.Read(p)] with [len(p) = n]; the result is the prefix
    of [p] that was written. The bytes come from the buffer when it is not
    empty and otherwise from at most one read of the underlying reader, so
    fewer than [n] bytes may be returned without an error. *)
Definition bufio_Read (n : nat) (r : Reader) : (bytes * option error) * Reader :=
  match n with
  | O => (([], None), r)
  | S _ =>
      match pending r with
      | _ :: _ =>
          ((take n (pending r), None),
           {| pending := drop n (pending r); src := src r |})
      | [] =>
          if (bufSize <=? n)%nat then
            (* large read, empty buffer: read directly into p *)
            match Source_Read n (chunks (src r)) with
            | None => (([], Some (final (src r))), r)
            | Some (d, cs) =>
                ((d, None), {| pending := []; src := with_chunks (src r) cs |})
            end
          else
            (* one read into the buffer, then copy as much as fits *)
            match Source_Read bufSize (chunks (src r)) with
            | None => (([], Some (final (src r))), r)
            | Some (d, cs) =>
                ((take n d, None),
                 {| pending := drop n d; src := with_chunks (src r) cs |})
            end
      end
  end.

(** ** The Go run time: [make] *)

(** [runtime.makeslice] panics when the capacity is negative or the
    allocation exceeds [maxAlloc] (2^48 bytes on linux/amd64), or when the
    length is negative or above the capacity. *)
Definition maxAlloc : Z := 2 ^ 48.

Definition makeslice_panics (elem_size len cap : Z) : bool :=
  (cap <? 0) || (maxAlloc <? elem_size * cap) || (len <? 0) || (cap <? len).

(** [unsafe.Sizeof(Value{})] on a 64-bit platform: three strings, an int
    and a slice. *)
Definition sizeof_Value : Z := 80.

(** ** resp.go: the decoder *)

(** The loop of [readLine], with the bytes accumulated so far. *)
Fixpoint readLine_loop (fuel : nat) (line : bytes) (n : Z) (r : Reader)
  : outcome Reader (bytes * Z * option error) :=
  match fuel with
  | O => OutOfFuel
  | S f =>
      let '((c, err), r1) := ReadByte r in
      match err with
      | Some e => Done ([], 0, Some e) r1
      | None =>
          let n1 := n + 1 in
          let line1 := line ++ [c] in
          if (2 <=? length line1)%nat
             && Ascii.eqb (nth (length line1 - 2) line1 NUL) CR
          then Done (take (length line1 - 2) line1, n1, None) r1
          else readLine_loop f line1 n1 r1
      end
  end.

(** [readLine] reads a line ending with [\r\n]. *)
Definition readLine (fuel : nat) (r : Reader)
  : outcome Reader (bytes * Z * option error) :=
  readLine_loop fuel [] 0 r.

(** [readInteger] reads an integer from the RESP data. *)
Definition readInteger (fuel : nat) (r : Reader)
  : outcome Reader (Z * Z * option error) :=
  call (line, n, err) at r1 := readLine fuel r in
  match err with
  | Some e => Done (0, 0, Some e) r1
  | None =>
      let '(i64, err) := ParseInt s(line) in
      match err with
      | Some e => Done (0, n, Some e) r1
      | None => Done (i64, n, None) r1
      end
  end.

Definition set_array (v : Value) (a : list Value) : Value :=
  mkValue (typ v) (str v) (num v) (bulk v) a.

Definition set_bulk (v : Value) (b : string) : Value :=
  mkValue (typ v) (str v) (num v) b (array v).

(** The loop [for i := 0; i < length; i++] of [readArray], with the call
    [r.Read()] as [Read]. *)
Fixpoint readArray_loop (Read : Reader -> outcome Reader (Value * option error))
    (fuel : nat) (i length : Z) (v : Value) (r : Reader)
  : outcome Reader (Value * option error) :=
  if i <? length then
    match fuel with
    | O => OutOfFuel
    | S f =>
        call (val, err) at r1 := Read r in
        match err with
        | Some e => Done (v, Some e) r1
        | None =>
            readArray_loop Read f (i + 1) length
              (set_array v (array v ++ [val])) r1
        end
    end
  else Done (v, None) r.

(** [readArray] reads an array from the RESP data. *)
Definition readArray (Read : Reader -> outcome Reader (Value * option error))
    (fuel : nat) (r : Reader) : outcome Reader (Value * option error) :=
  let v := Value_typ ValueTypArray in
  call (length, _, err) at r1 := readInteger fuel r in
  match err with
  | Some e => Done (v, Some e) r1
  | None =>
      if makeslice_panics sizeof_Value 0 length
      then Panic "makeslice: cap out of range"
      else readArray_loop Read fuel 0 length (set_array v []) r1
  end.

(** [readBulkString] reads a bulk string from the RESP data. *)
Definition readBulkString (fuel : nat) (r : Reader)
  : outcome Reader (Value * option error) :=
  let v := Value_typ ValueTypBulkString in
  call (length, _, err) at r1 := readInteger fuel r in
  match err with
  | Some e => Done (v, Some e) r1
  | None =>
      if makeslice_panics 1 length length
      then Panic "makeslice: len out of range"
      else
        let '((data, err), r2) := bufio_Read (Z.to_nat length) r1 in
        match err with
        | Some e => Done (v, Some e) r2
        | None =>
            let bulk :=
              data ++ repeat NUL (Z.to_nat length - List.length data) in
            let v := set_bulk v s(bulk) in
            call (_, _, err) at r3 := readLine fuel r2 in
            Done (v, err) r3
        end
  end.

(** [Read] reads a RESP value. *)
Fixpoint Read (fuel : nat) (r : Reader) : outcome Reader (Value * option error) :=
  match fuel with
  | O => OutOfFuel
  | S f =>
      let '((_type, err), r1) := ReadByte r in
      match err with
      | Some e => Done (Value_zero, Some e) r1
      | None =>
          if Ascii.eqb _type FB_ARRAY then readArray (Read f) f r1
          else if Ascii.eqb _type FB_BULK_STRING then readBulkString f r1
          else Done (Value_zero, None) r1
      end
  end.

(** Decoding a file: the value and error of the first [Read]. *)
Definition decode (fuel : nat) (data : bytes)
  : outcome Reader (Value * option error) :=
  Read fuel (NewResp (file_Source data)).

Definition crlf (s : string) : bytes := b(s) ++ [CR; LF].

(** ** handler.go: the store *)

(** [SETs] stores key-value pairs for the SET command and [HSETs] the hash
    maps for the HSET command. The two package variables are the fields of
    one record, passed explicitly; the mutexes guard single map operations
    and are not modelled. *)
Record Store : Type := {
  SETs : gmap string string;
  HSETs : gmap string (gmap string string)
}.

Definition Store_init : Store := {| SETs := ∅; HSETs := ∅ |}.

Definition Handler : Type := list Value -> Store -> Value * Store.

Definition wrong_args (name : string) : Value :=
  Value_str ValueTypSimpleError
    ("ERR wrong number of arguments for '" +:+ name +:+ "' command").

(** ** handler.go: the command handlers *)

(** [ping] handles the PING command. *)
Definition ping : Handler := fun args st =>
  match args with
  | [] => (Value_str ValueTypSimpleString "PONG", st)
  | a0 :: _ => (Value_str ValueTypSimpleString (bulk a0), st)
  end.

(** [set] handles the SET command. *)
Definition set : Handler := fun args st =>
  match args with
  | [a0; a1] =>
      let key := bulk a0 in
      let value := bulk a1 in
      (Value_str ValueTypSimpleString "OK",
       {| SETs := <[key := value]> (SETs st); HSETs := HSETs st |})
  | _ => (wrong_args "set", st)
  end.

(** [get] handles the GET command. *)
Definition get : Handler := fun args st =>
  match args with
  | [a0] =>
      let key := bulk a0 in
      match SETs st !! key with
      | None => (Value_typ ValueTypNull, st)
      | Some value => (Value_bulk ValueTypBulkString value, st)
      end
  | _ => (wrong_args "get", st)
  end.

(** [hset] handles the HSET command. *)
Definition hset : Handler := fun args st =>
  match args with
  | [a0; a1; a2] =>
      let hash := bulk a0 in
      let key := bulk a1 in
      let value := bulk a2 in
      let hsets1 :=
        match HSETs st !! hash with
        | Some _ => HSETs st
        | None => <[hash := ∅]> (HSETs st)
        end in
      let inner := default ∅ (hsets1 !! hash) in
      (Value_str ValueTypSimpleString "OK",
       {| SETs := SETs st; HSETs := <[hash := <[key := value]> inner]> hsets1 |})
  | _ => (wrong_args "hset", st)
  end.

(** [HSETs[hash][key]]: indexing an absent hash gives the nil map, in which
    every key is absent. *)
Definition hash_field (st : Store) (hash key : string) : option string :=
  match HSETs st !! hash with
  | Some m => m !! key
  | None => None
  end.

(** [hget] handles the HGET command. *)
Definition hget : Handler := fun args st =>
  match args with
  | [a0; a1] =>
      let hash := bulk a0 in
      let key := bulk a1 in
      match hash_field st hash key with
      | None => (Value_typ ValueTypNull, st)
      | Some value => (Value_bulk ValueTypBulkString value, st)
      end
  | _ => (wrong_args "hget", st)
  end.

(** The body of the loop [for k, v := range value] of [hgetall]. *)
Definition append_pair (values : list Value) (kv : string * string) : list Value :=
  (values ++ [Value_bulk ValueTypBulkString (fst kv)])
    ++ [Value_bulk ValueTypBulkString (snd kv)].

Section Dispatch.

(** Go leaves the order in which [range] visits a map unspecified:
    [range_order] is the order chosen for a given set of entries. *)
Variable range_order : list (string * string) -> list (string * string).

(** [strings.ToUpper]. *)
Variable ToUpper : string -> string.

(** [hgetall] handles the HGETALL command. *)
Definition hgetall : Handler := fun args st =>
  match args with
  | [a0] =>
      let hash := bulk a0 in
      match HSETs st !! hash with
      | None => (Value_typ ValueTypNull, st)
      | Some value =>
          let values :=
            fold_left append_pair (range_order (map_to_list value)) [] in
          (Value_array ValueTypArray values, st)
      end
  | _ => (wrong_args "hgetall", st)
  end.

(** [Handlers] maps command strings to their respective handler
    functions. *)
Definition Handlers (command : string) : option Handler :=
  if String.eqb command "PING" then Some ping
  else if String.eqb command "SET" then Some set
  else if String.eqb command "GET" then Some get
  else if String.eqb command "HSET" then Some hset
  else if String.eqb command "HGET" then Some hget
  else if String.eqb command "HGETALL" then Some hgetall
  else None.

(** A handler looked up by name and called, as both callers of
    [Handlers] do; a name that is not registered leaves the store as it
    is. *)
Definition invoke (c : string * list Value) (st : Store) : Store :=
  match Handlers (fst c) with
  | Some handler => snd (handler (snd c) st)
  | None => st
  end.

Definition run (cs : list (string * list Value)) (st : Store) : Store :=
  fold_left (fun st c => invoke c st) cs st.

(** ** The append-only file *)

(** The log file with the offset of its descriptor: [NewAof] opens it
    with [O_CREATE|O_RDWR], so a write goes to the current offset.
    [write_error] is what the file system answers to a write. *)
Record Aof : Type := {
  file : bytes;
  offset : nat;
  write_error : option error
}.

Definition NewAof (data : bytes) (werr : option error) : Aof :=
  {| file := data; offset := 0; write_error := werr |}.

(** [os.File.Write] at the current offset. *)
Definition File_Write (data : bytes) (a : Aof) : option error * Aof :=
  match write_error a with
  | Some e => (Some e, a)
  | None =>
      (None,
       {| file := take (offset a) (file a) ++ data
                    ++ drop (offset a + length data) (file a);
          offset := offset a + length data;
          write_error := None |})
  end.

(** [Aof.Write] writes a RESP value to the AOF file. *)
Definition Aof_Write (value : Value) (a : Aof) : option error * Aof :=
  File_Write (Marshal value) a.

(** The loop of [Aof.Read]. *)
Fixpoint Aof_Read_loop (fuel : nat) (fn : Value -> Store -> outcome Store unit)
    (reader : Reader) (st : Store) : outcome (Reader * Store) (option error) :=
  match fuel with
  | O => OutOfFuel
  | S f =>
      match Read fuel reader with
      | Done (value, err) reader1 =>
          match err with
          | Some e =>
              if error_eqb e io_EOF then Done None (reader1, st)
              else Done (Some e) (reader1, st)
          | None =>
              match fn value st with
              | Done _ st1 => Aof_Read_loop f fn reader1 st1
              | Panic msg => Panic msg
              | OutOfFuel => OutOfFuel
              end
          end
      | Panic msg => Panic msg
      | OutOfFuel => OutOfFuel
      end
  end.

(** [Aof.Read] reads all RESP values from the AOF file and applies the
    provided function to each value. The descriptor is left where the
    buffered reader stopped reading the file. *)
Definition Aof_Read (fuel : nat) (fn : Value -> Store -> outcome Store unit)
    (a : Aof) (st : Store) : outcome (Aof * Store) (option error) :=
  match Aof_Read_loop fuel fn (NewResp (file_Source (file a))) st with
  | Done err (reader, st1) =>
      Done err
        ({| file := file a;
            offset := length (file a) - length (concat (chunks (src reader)));
            write_error := write_error a |}, st1)
  | Panic msg => Panic msg
  | OutOfFuel => OutOfFuel
  end.

(** ** main.go *)

(** The function literal that [main] passes to [aof.Read]. *)
Definition replay_fn (value : Value) (st : Store) : outcome Store unit :=
  match array value with
  | [] => Panic "index out of range [0] with length 0"
  | v0 :: args =>
      let command := ToUpper (bulk v0) in
      match Handlers command with
      | None => Done tt st
      | Some handler => Done tt (snd (handler args st))
      end
  end.

(** How [main] gets on until its accept loop: it has returned, it has
    crashed, or it serves connections with a store and a log. *)
Inductive startup : Type :=
| Returned
| Crashed (msg : string)
| Serving (st : Store) (a : Aof)
| StartupOutOfFuel.

(** [main] up to the accept loop. [listen_err] and [open_err] are the
    errors of [net.Listen] and of [NewAof]; [log] is the content of
    [database.aof]. *)
Definition main (fuel : nat) (listen_err open_err : option error)
    (log : bytes) (werr : option error) : startup :=
  match listen_err with
  | Some _ => Returned
  | None =>
      match open_err with
      | Some _ => Returned
      | None =>
          match Aof_Read fuel replay_fn (NewAof log werr) Store_init with
          | Done _ (a, st) => Serving st a
          | Panic msg => Crashed msg
          | OutOfFuel => StartupOutOfFuel
          end
      end
  end.

(** What a connection worker does, in the order in which it does it. *)
Inductive event : Type :=
| EvAofWrite (value : Value)
| EvHandler (command : string) (args : list Value)
| EvReply (v : Value).

(** The state a connection worker acts on: the store, the log, the bytes
    written to its connection, and the events so far. *)
Record World : Type := {
  store : Store;
  aof : Aof;
  conn_out : bytes;
  events : list event
}.

(** [Writer.Write] writes a RESP value to the connection; the worker
    ignores its error. *)
Definition Writer_Write (v : Value) (w : World) : World :=
  {| store := store w; aof := aof w;
     conn_out := conn_out w ++ Marshal v;
     events := events w ++ [EvReply v] |}.

Definition World_Aof_Write (value : Value) (w : World) : option error * World :=
  let '(err, a) := Aof_Write value (aof w) in
  (err, {| store := store w; aof := a; conn_out := conn_out w;
           events := events w ++ [EvAofWrite value] |}).

Definition World_handler (command : string) (handler : Handler)
    (args : list Value) (w : World) : Value * World :=
  let '(result, st) := handler args (store w) in
  (result, {| store := st; aof := aof w; conn_out := conn_out w;
              events := events w ++ [EvHandler command args] |}).

(** One iteration of the loop of [handleConnection], after [resp.Read]
    has returned [value] without an error. *)
Definition handleCommand (value : Value) (w : World) : World :=
  if negb (String.eqb (typ value) ValueTypArray) then
    Writer_Write
      (Value_str ValueTypSimpleError "ERR invalid request, expected array") w
  else
    match array value with
    | [] =>
        Writer_Write
          (Value_str ValueTypSimpleError
             "ERR invalid request, expected array length > 0") w
    | v0 :: args =>
        let command := ToUpper (bulk v0) in
        match Handlers command with
        | None =>
            Writer_Write (Value_str ValueTypSimpleError "ERR unknown command") w
        | Some handler =>
            let '(err, w1) :=
              if String.eqb command "SET" || String.eqb command "HSET"
              then World_Aof_Write value w
              else (None, w) in
            match err with
            | Some _ =>
                Writer_Write
                  (Value_str ValueTypSimpleError "ERR failed to persist data") w1
            | None =>
                let '(result, w2) := World_handler command handler args w1 in
                Writer_Write result w2
            end
        end
    end.

(** [handleConnection] handles RESP commands from a single client
    connection, until a read fails. *)
Fixpoint handleConnection (fuel : nat) (resp : Reader) (w : World)
  : outcome (Reader * World) unit :=
  match fuel with
  | O => OutOfFuel
  | S f =>
      match Read fuel resp with
      | Done (value, err) resp1 =>
          match err with
          | Some _ => Done tt (resp1, w)
          | None => handleConnection f resp1 (handleCommand value w)
          end
      | Panic msg => Panic msg
      | OutOfFuel => OutOfFuel
      end
  end.

End Dispatch.

(** [strings.ToUpper] on a string of ASCII bytes. *)
Definition upper_ascii (c : ascii) : ascii :=
  let n := N_of_ascii c in
  if ((97 <=? n) && (n <=? 122))%N then ascii_of_N (n - 32) else c.

Definition ToUpper_ascii (s : string) : string :=
  s(List.map upper_ascii b(s)).

(** ** The vocabulary of the properties *)

Definition bulk_string (s : string) : Value := Value_bulk ValueTypBulkString s.

(** The invocation [c] is a SET of [key] that passes the arity check, the
    only invocation that writes [SETs[key]]. *)
Definition is_SET_of (key : string) (c : string * list Value) : bool :=
  String.eqb (fst c) "SET"
  && match snd c with
     | [a0; _] => String.eqb (bulk a0) key
     | _ => false
     end.

(** The invocation [c] is an HSET of [field] in [hash] that passes the
    arity check, the only invocation that writes [HSETs[hash][field]]. *)
Definition is_HSET_of (hash field : string) (c : string * list Value) : bool :=
  String.eqb (fst c) "HSET"
  && match snd c with
     | [a0; a1; _] => String.eqb (bulk a0) hash && String.eqb (bulk a1) field
     | _ => false
     end.

(** Every hash that is present has at least one field. *)
Definition hashes_nonempty (st : Store) : Prop :=
  forall (h : string) (m : gmap string string), HSETs st !! h = Some m -> m <> ∅.

(** A decode failure: the call returns with an error. *)
Definition decode_fails {St : Type} (o : outcome St (Value * option error)) : Prop :=
  exists v e st, o = Done (v, Some e) st.

(** A successful decode: the call returns a value with a nil error. *)
Definition decode_succeeds {St : Type} (o : outcome St (Value * option error))
    (v : Value) : Prop :=
  exists st, o = Done (v, None) st.

Definition request (words : list string) : Value :=
  Value_array ValueTypArray (List.map bulk_string words).

(** A log of three records: a SET, a frame with the malformed length [x],
    and another SET. *)
Definition broken_log : bytes :=
  Marshal (request ["SET"; "k"; "v"]) ++ crlf "*x"
    ++ Marshal (request ["SET"; "k2"; "v2"]).

Definition World_init : World :=
  {| store := Store_init; aof := NewAof [] None; conn_out := []; events := [] |}.

(** The kinds for which [Marshal] has a wire form. *)
Fixpoint encoder_supports (v : Value) : bool :=
  if String.eqb (typ v) ValueTypArray then forallb encoder_supports (array v)
  else String.eqb (typ v) ValueTypBulkString
       || String.eqb (typ v) ValueTypSimpleString
       || String.eqb (typ v) ValueTypSimpleError
       || String.eqb (typ v) ValueTypNull.

(** The kinds [Read] decodes: BulkString, and Array of such values. *)
Fixpoint decodable (v : Value) : bool :=
  if String.eqb (typ v) ValueTypArray then forallb decodable (array v)
  else String.eqb (typ v) ValueTypBulkString.

(** The kind of a value with the payload of that kind, the other fields
    being zero. *)
Fixpoint payload (v : Value) : Value :=
  if String.eqb (typ v) ValueTypArray
  then Value_array ValueTypArray (List.map payload (array v))
  else if String.eqb (typ v) ValueTypBulkString
  then Value_bulk ValueTypBulkString (bulk v)
  else if String.eqb (typ v) ValueTypSimpleString
          || String.eqb (typ v) ValueTypSimpleError
  then Value_str (typ v) (str v)
  else if String.eqb (typ v) ValueTypInteger
  then mkValue ValueTypInteger "" (num v) "" []
  else Value_typ (typ v).

(** Decoding the encoding of [v] from a file gives a value of the same
    kind and payload. *)
Definition round_trips (fuel : nat) (v : Value) : Prop :=
  exists v', decode_succeeds (decode fuel (Marshal v)) v'
             /\ typ v' = typ v /\ payload v' = payload v.

(** The replies a worker writes to a connection on which the requests
    [reqs] arrive in one piece before it is closed, from the empty store
    and an empty log; and the state it leaves. *)
Definition serve (reqs : list Value) : option World :=
  match
    handleConnection (fun l => l) ToUpper_ascii 100
      (NewResp {| chunks := [concat (List.map Marshal reqs)]; final := io_EOF |})
      World_init
  with
  | Done _ (_, w) => Some w
  | _ => None
  end.

Definition replies (reqs : list Value) : option string :=
  option_map (fun w => s(conn_out w)) (serve reqs).

(** The bytes a reader can still deliver. *)
Definition avail (r : Reader) : nat :=
  (length (pending r) + length (concat (chunks (src r))))%nat.

(** A call of the decoder has returned or panicked, and a value returned
    without error has cost at least one byte. *)
Definition progress (r : Reader) (o : outcome Reader (Value * option error)) : Prop :=
  match o with
  | Done (_, None) r1 => (avail r1 < avail r)%nat
  | Done (_, Some _) r1 => (avail r1 <= avail r)%nat
  | Panic _ => True
  | OutOfFuel => False
  end.

(** A BulkString of 4090 bytes: with its header of seven bytes, its
    payload ends one byte after the first 4096 bytes of its encoding. *)
Definition long_bulk_string : Value :=
  bulk_string s(repeat "a"%char 4090).

(** What the decoder returns for it: 4089 bytes of the payload and a NUL. *)
Definition long_bulk_string_decoded : Value :=
  bulk_string s(repeat "a"%char 4089 ++ [NUL]).

(** ** The vocabulary of the further properties *)

(** The number of arguments the handler registered under [command] asks
    for; [ping], which takes none or one, has no check. *)
Definition arity_of (command : string) : option nat :=
  if String.eqb command "SET" then Some 2%nat
  else if String.eqb command "GET" then Some 1%nat
  else if String.eqb command "HSET" then Some 3%nat
  else if String.eqb command "HGET" then Some 2%nat
  else if String.eqb command "HGETALL" then Some 1%nat
  else None.

Definition lower_ascii (c : ascii) : ascii :=
  let n := N_of_ascii c in
  if ((65 <=? n) && (n <=? 90))%N then ascii_of_N (n + 32) else c.

Definition ToLower_ascii (s : string) : string :=
  s(List.map lower_ascii b(s)).

(** The value that the invocation [c] writes under [key], when it is a
    SET of [key] that passes the arity check. *)
Definition SET_value (key : string) (c : string * list Value) : option string :=
  if String.eqb (fst c) "SET" then
    match snd c with
    | [a0; a1] => if String.eqb (bulk a0) key then Some (bulk a1) else None
    | _ => None
    end
  else None.

(** The value that the invocation [c] writes in [field] of [hash], when it
    is an HSET of that field that passes the arity check. *)
Definition HSET_value (hash field : string) (c : string * list Value)
  : option string :=
  if String.eqb (fst c) "HSET" then
    match snd c with
    | [a0; a1; a2] =>
        if String.eqb (bulk a0) hash && String.eqb (bulk a1) field
        then Some (bulk a2) else None
    | _ => None
    end
  else None.

(** The last value written by a sequence of invocations, if any writes. *)
Fixpoint last_write {A : Type} (written : A -> option string) (cs : list A)
  : option string :=
  match cs with
  | [] => None
  | c :: cs' =>
      match last_write written cs' with
      | Some v => Some v
      | None => written c
      end
  end.

(** The two elements of the reply of HGETALL for one field. *)
Definition pair_values (kv : string * string) : list Value :=
  [bulk_string (fst kv); bulk_string (snd kv)].

(** One store laid over another: an entry of [top] hides the entry of
    [base] with the same key, and a hash of [top] hides the fields of the
    same name in the hash of [base] with the same name. *)
Definition overlay (top base : Store) : Store :=
  {| SETs := SETs top ∪ SETs base;
     HSETs := union_with (fun m1 m2 => Some (m1 ∪ m2)) (HSETs top) (HSETs base) |}.

(** The bytes a reader has still to deliver, in order. *)
Definition remaining (r : Reader) : bytes :=
  pending r ++ concat (chunks (src r)).

(** The kinds of value the decoder builds: the zero Value, BulkString, and
    Array of such values. *)
Fixpoint decoder_kind (v : Value) : bool :=
  if String.eqb (typ v) ValueTypArray then forallb decoder_kind (array v)
  else String.eqb (typ v) ValueTypBulkString || String.eqb (typ v) "".

(** A line that [strconv.ParseInt] takes for a decimal integer: an
    optional sign and at least one decimal digit. *)
Definition is_decimal (line : bytes) : bool :=
  match line with
  | [] => false
  | c :: rest =>
      if Ascii.eqb c "+" || Ascii.eqb c "-"
      then match rest with [] => false | _ => forallb is_digit rest end
      else forallb is_digit line
  end.

(** A command frame: an Array with at least one element. *)
Definition is_command (value : Value) : bool :=
  String.eqb (typ value) ValueTypArray
  && match array value with [] => false | _ :: _ => true end.

(** The handler invocation that a command frame asks for: the upper-cased
    bulk payload of its first element and the elements after it. *)
Definition invocation (ToUpper : string -> string) (value : Value)
  : string * list Value :=
  match array value with
  | v0 :: args => (ToUpper (bulk v0), args)
  | [] => (ToUpper "", [])
  end.

(** A command frame whose upper-cased name is SET or HSET. *)
Definition is_mutating (ToUpper : string -> string) (value : Value) : bool :=
  is_command value
  && (String.eqb (fst (invocation ToUpper value)) "SET"
      || String.eqb (fst (invocation ToUpper value)) "HSET").

(** A connection or a file that delivers [data] in one piece and then
    reports [e]. *)
Definition one_piece (data : bytes) (e : error) : Source :=
  {| chunks := [data]; final := e |}.

(** * Properties *)

(** ** Examples of the encoder and of the decimal conversions *)

Example Marshal_ok :
  s(Marshal (Value_str ValueTypSimpleString "OK")) = "+OK" +:+ s([CR; LF]).
Proof. reflexivity. Qed.

Example Marshal_request :
  s(Marshal (Value_array ValueTypArray
               [Value_bulk ValueTypBulkString "GET";
                Value_bulk ValueTypBulkString "foo"]))
  = s(b("*2") ++ [CR; LF] ++ b("$3") ++ [CR; LF] ++ b("GET") ++ [CR; LF]
        ++ b("$3") ++ [CR; LF] ++ b("foo") ++ [CR; LF]).
Proof. reflexivity. Qed.

Example Itoa_examples :
  Itoa 0 = "0" /\ Itoa 4096 = "4096" /\ Itoa (-1) = "-1"
  /\ ParseInt "4096" = (4096, None) /\ ParseInt "-1" = (-1, None)
  /\ ParseInt "+7" = (7, None) /\ ParseInt "x" = (0, Some ErrSyntax)
  /\ ParseInt "" = (0, Some ErrSyntax)
  /\ ParseInt "9223372036854775808" = (2 ^ 63 - 1, Some ErrRange)
  /\ ParseInt "-9223372036854775808" = (- 2 ^ 63, None).
Proof. repeat split; reflexivity. Qed.

(** ** The scenarios of the specification *)

Example scenario_set_get :
  replies [request ["SET"; "foo"; "bar"]; request ["GET"; "foo"]]
  = Some s(crlf "+OK" ++ crlf "$3" ++ crlf "bar").
Proof. vm_compute. reflexivity. Qed.

Example scenario_ping :
  replies [request ["PING"]; request ["PING"; "hello"]]
  = Some s(crlf "+PONG" ++ crlf "+hello").
Proof. vm_compute. reflexivity. Qed.

Example scenario_hset_hget :
  replies [request ["HSET"; "h"; "f"; "v"]; request ["HGET"; "h"; "f"];
           request ["HGET"; "h"; "missing"]]
  = Some s(crlf "+OK" ++ crlf "$1" ++ crlf "v" ++ crlf "$-1").
Proof. vm_compute. reflexivity. Qed.

Example scenario_unknown_command :
  replies [request ["FOO"]] = Some s(crlf "-ERR unknown command").
Proof. vm_compute. reflexivity. Qed.

(** After SET and HSET commands the log holds their frames, and a restart
    on that log rebuilds the store the worker left. *)
Example scenario_replay :
  match serve [request ["set"; "foo"; "bar"]; request ["GET"; "foo"];
               request ["HSET"; "h"; "f"; "v"]; request ["PING"]] with
  | Some w =>
      file (aof w)
      = Marshal (request ["set"; "foo"; "bar"])
          ++ Marshal (request ["HSET"; "h"; "f"; "v"])
      /\ match main (fun l => l) ToUpper_ascii 100 None None (file (aof w)) None with
         | Serving st a =>
             st = store w /\ offset a = length (file (aof w))
         | _ => False
         end
  | None => False
  end.
Proof. vm_compute. split; [reflexivity|split; reflexivity]. Qed.

(** ** The store and the handlers *)

Lemma Handlers_cases range_order command handler :
  Handlers range_order command = Some handler ->
  (command = "PING" /\ handler = ping) \/ (command = "SET" /\ handler = set)
  \/ (command = "GET" /\ handler = get) \/ (command = "HSET" /\ handler = hset)
  \/ (command = "HGET" /\ handler = hget)
  \/ (command = "HGETALL" /\ handler = hgetall range_order).
Proof.
  unfold Handlers.
  repeat match goal with
         | |- context [String.eqb ?a ?b] => destruct (String.eqb_spec a b)
         end; intros H; inversion H; subst; tauto.
Qed.

(** Case analysis on the handler that a name is registered for. *)
Ltac by_handler Hh :=
  apply Handlers_cases in Hh;
  destruct Hh as [[-> ->]|[[-> ->]|[[-> ->]|[[-> ->]|[[-> ->]|[-> ->]]]]]].

Section HandlerFacts.

Variable range_order : list (string * string) -> list (string * string).

Lemma ping_store args st : snd (ping args st) = st.
Proof. destruct args; reflexivity. Qed.

Lemma get_store args st : snd (get args st) = st.
Proof.
  destruct args as [|a0 [|a1 l]]; try reflexivity.
  simpl. destruct (SETs st !! bulk a0); reflexivity.
Qed.

Lemma hget_store args st : snd (hget args st) = st.
Proof.
  destruct args as [|a0 [|a1 [|a2 l]]]; try reflexivity.
  simpl. destruct (hash_field st (bulk a0) (bulk a1)); reflexivity.
Qed.

Lemma hgetall_store args st : snd (hgetall range_order args st) = st.
Proof.
  destruct args as [|a0 [|a1 l]]; try reflexivity.
  simpl. destruct (HSETs st !! bulk a0); reflexivity.
Qed.

Lemma set_SETs args st :
  SETs (snd (set args st))
  = match args with
    | [a0; a1] => <[bulk a0 := bulk a1]> (SETs st)
    | _ => SETs st
    end.
Proof. destruct args as [|a0 [|a1 [|a2 l]]]; reflexivity. Qed.

Lemma set_HSETs args st : HSETs (snd (set args st)) = HSETs st.
Proof. destruct args as [|a0 [|a1 [|a2 l]]]; reflexivity. Qed.

Lemma hset_SETs args st : SETs (snd (hset args st)) = SETs st.
Proof. destruct args as [|a0 [|a1 [|a2 [|a3 l]]]]; reflexivity. Qed.

(** What [hset] leaves in the hash it writes: the old fields, or none for
    a new hash, with the one field updated. *)
Lemma hset_HSETs a0 a1 a2 st :
  HSETs (snd (hset [a0; a1; a2] st))
  = <[bulk a0 := <[bulk a1 := bulk a2]> (default ∅ (HSETs st !! bulk a0))]>
      (HSETs st).
Proof.
  simpl. destruct (HSETs st !! bulk a0) as [m|] eqn:E.
  - rewrite E. reflexivity.
  - rewrite lookup_insert_eq. simpl. apply insert_insert_eq.
Qed.

Lemma invoke_SETs_other key c st :
  is_SET_of key c = false ->
  SETs (invoke range_order c st) !! key = SETs st !! key.
Proof.
  destruct c as [command args]. unfold is_SET_of, invoke. simpl. intros Hc.
  destruct (Handlers range_order command) as [handler|] eqn:Hh; [|reflexivity].
  by_handler Hh.
  - now rewrite ping_store.
  - rewrite set_SETs. simpl in Hc.
    destruct args as [|a0 [|a1 [|a2 l]]]; try reflexivity.
    apply String.eqb_neq in Hc. now rewrite lookup_insert_ne.
  - now rewrite get_store.
  - now rewrite hset_SETs.
  - now rewrite hget_store.
  - now rewrite hgetall_store.
Qed.

Lemma run_SETs_other key cs st :
  forallb (fun c => negb (is_SET_of key c)) cs = true ->
  SETs (run range_order cs st) !! key = SETs st !! key.
Proof.
  revert st. induction cs as [|c cs IH]; intros st Hcs; [reflexivity|].
  simpl in Hcs. apply andb_prop in Hcs as [Hc Hcs].
  apply negb_true_iff in Hc.
  change (run range_order (c :: cs) st)
    with (run range_order cs (invoke range_order c st)).
  rewrite (IH _ Hcs). now apply invoke_SETs_other.
Qed.

Lemma invoke_hash_field_other hash field c st :
  is_HSET_of hash field c = false ->
  hash_field (invoke range_order c st) hash field = hash_field st hash field.
Proof.
  destruct c as [command args]. unfold is_HSET_of, invoke. simpl. intros Hc.
  destruct (Handlers range_order command) as [handler|] eqn:Hh; [|reflexivity].
  by_handler Hh.
  - now rewrite ping_store.
  - unfold hash_field. now rewrite set_HSETs.
  - now rewrite get_store.
  - simpl in Hc. unfold hash_field.
    destruct args as [|a0 [|a1 [|a2 [|a3 l]]]]; try reflexivity.
    rewrite hset_HSETs.
    destruct (decide (bulk a0 = hash)) as [Eh|Nh].
    + rewrite Eh, lookup_insert_eq.
      destruct (decide (bulk a1 = field)) as [Ef|Nf].
      * rewrite Eh, Ef, !String.eqb_refl in Hc. discriminate.
      * rewrite lookup_insert_ne by exact Nf.
        destruct (HSETs st !! hash); [reflexivity|apply lookup_empty].
    + now rewrite lookup_insert_ne.
  - now rewrite hget_store.
  - now rewrite hgetall_store.
Qed.

Lemma run_hash_field_other hash field cs st :
  forallb (fun c => negb (is_HSET_of hash field c)) cs = true ->
  hash_field (run range_order cs st) hash field = hash_field st hash field.
Proof.
  revert st. induction cs as [|c cs IH]; intros st Hcs; [reflexivity|].
  simpl in Hcs. apply andb_prop in Hcs as [Hc Hcs].
  apply negb_true_iff in Hc.
  change (run range_order (c :: cs) st)
    with (run range_order cs (invoke range_order c st)).
  rewrite (IH _ Hcs). now apply invoke_hash_field_other.
Qed.

(** C2. GET of a key immediately after SET of that key to a value returns
    BulkString(value), for every key, value and store; and GET of a key
    that no handler invocation since the empty store has written returns
    the Null value. *)
Theorem set_then_get :
  (forall (st : Store) (k v q : Value),
      bulk q = bulk k ->
      fst (get [q] (snd (set [k; v] st)))
      = Value_bulk ValueTypBulkString (bulk v))
  /\ (forall (cs : list (string * list Value)) (q : Value),
        forallb (fun c => negb (is_SET_of (bulk q) c)) cs = true ->
        fst (get [q] (run range_order cs Store_init))
        = Value_typ ValueTypNull).
Proof.
  split.
  - intros st k v q Hq. simpl. rewrite Hq, lookup_insert_eq. reflexivity.
  - intros cs q Hcs. simpl.
    rewrite (run_SETs_other _ _ _ Hcs). simpl. now rewrite lookup_empty.
Qed.

(** C3. HGET of a field of a hash after HSET of that field to a value
    returns BulkString(value), whatever handler invocations come in
    between as long as none writes that field again; and HGET returns
    the Null value when the hash is absent or the field is absent within
    it. *)
Theorem hset_then_hget :
  (forall (st : Store) (h f v qh qf : Value) (cs : list (string * list Value)),
      bulk qh = bulk h -> bulk qf = bulk f ->
      forallb (fun c => negb (is_HSET_of (bulk h) (bulk f) c)) cs = true ->
      fst (hget [qh; qf] (run range_order cs (snd (hset [h; f; v] st))))
      = Value_bulk ValueTypBulkString (bulk v))
  /\ (forall (st : Store) (qh qf : Value),
        HSETs st !! bulk qh = None
        \/ (exists m, HSETs st !! bulk qh = Some m /\ m !! bulk qf = None) ->
        fst (hget [qh; qf] st) = Value_typ ValueTypNull).
Proof.
  split.
  - intros st h f v qh qf cs Hh Hf Hcs.
    unfold hget. rewrite Hh, Hf, (run_hash_field_other _ _ _ _ Hcs).
    unfold hash_field. rewrite hset_HSETs, !lookup_insert_eq. reflexivity.
  - intros st qh qf H. unfold hget, hash_field.
    destruct H as [->|[m [-> ->]]]; reflexivity.
Qed.

End HandlerFacts.

Lemma set_then_get_witness :
  fst (get [bulk_string "foo"]
         (snd (set [bulk_string "foo"; bulk_string "bar"] Store_init)))
  = bulk_string "bar"
  /\ fst (get [bulk_string "foo"]
            (run (fun l => l)
               [("SET", [bulk_string "fop"; bulk_string "bar"]);
                ("HSET", [bulk_string "foo"; bulk_string "f"; bulk_string "v"]);
                ("SET", [bulk_string "foo"])]
               Store_init))
     = Value_typ ValueTypNull.
Proof.
  split.
  - apply (proj1 (set_then_get (fun l => l))). reflexivity.
  - apply (proj2 (set_then_get (fun l => l))). reflexivity.
Defined.

Lemma hset_then_hget_witness :
  fst (hget [bulk_string "h"; bulk_string "f"]
         (run (fun l => l)
            [("HSET", [bulk_string "h"; bulk_string "g"; bulk_string "w"]);
             ("SET", [bulk_string "h"; bulk_string "f"]);
             ("HGETALL", [bulk_string "h"])]
            (snd (hset [bulk_string "h"; bulk_string "f"; bulk_string "v"]
                    Store_init))))
  = bulk_string "v"
  /\ fst (hget [bulk_string "h"; bulk_string "missing"]
            (snd (hset [bulk_string "h"; bulk_string "f"; bulk_string "v"]
                    Store_init)))
     = Value_typ ValueTypNull.
Proof.
  split.
  - apply (proj1 (hset_then_hget (fun l => l))); reflexivity.
  - apply (proj2 (hset_then_hget (fun l => l))). right.
    exists {["f" := "v"]}. split; vm_compute; reflexivity.
Defined.

(** C9. PING with no argument returns SimpleString "PONG" and with one
    argument a SimpleString echoing its bulk payload. With two or more
    arguments the handler also echoes the first argument: it has no arity
    check, and the reply is not the wrong-number-of-arguments error. *)
Theorem ping_arities (a0 a1 : Value) (rest : list Value) (st : Store) :
  fst (ping [] st) = Value_str ValueTypSimpleString "PONG"
  /\ fst (ping [a0] st) = Value_str ValueTypSimpleString (bulk a0)
  /\ fst (ping (a0 :: a1 :: rest) st) = Value_str ValueTypSimpleString (bulk a0)
  /\ fst (ping (a0 :: a1 :: rest) st) <> wrong_args "ping".
Proof. repeat split. discriminate. Qed.

Lemma length_fold_append_pair (l : list (string * string)) (acc : list Value) :
  length (fold_left append_pair l acc) = (length acc + 2 * length l)%nat.
Proof.
  revert acc. induction l as [|kv l IH]; intros acc; simpl.
  - lia.
  - rewrite IH. unfold append_pair. rewrite !length_app. simpl. lia.
Qed.

Section HashInvariant.

Variable range_order : list (string * string) -> list (string * string).
Hypothesis range_order_perm : forall l, range_order l ≡ₚ l.

Lemma hset_hashes_nonempty args st :
  hashes_nonempty st -> hashes_nonempty (snd (hset args st)).
Proof.
  intros Hst.
  destruct args as [|a0 [|a1 [|a2 [|a3 l]]]]; try exact Hst.
  intros h m. rewrite hset_HSETs.
  destruct (decide (bulk a0 = h)) as [->|Nh].
  - rewrite lookup_insert_eq. intros [= <-]. apply insert_non_empty.
  - rewrite lookup_insert_ne by exact Nh. apply Hst.
Qed.

Lemma invoke_hashes_nonempty c st :
  hashes_nonempty st -> hashes_nonempty (invoke range_order c st).
Proof.
  destruct c as [command args]. unfold invoke. simpl. intros Hst.
  destruct (Handlers range_order command) as [handler|] eqn:Hh; [|exact Hst].
  by_handler Hh.
  - now rewrite ping_store.
  - intros h m. rewrite set_HSETs. apply Hst.
  - now rewrite get_store.
  - now apply hset_hashes_nonempty.
  - now rewrite hget_store.
  - now rewrite hgetall_store.
Qed.

Lemma run_hashes_nonempty cs st :
  hashes_nonempty st -> hashes_nonempty (run range_order cs st).
Proof.
  revert st. induction cs as [|c cs IH]; intros st Hst; [exact Hst|].
  apply (IH (invoke range_order c st)). now apply invoke_hashes_nonempty.
Qed.

Lemma hgetall_reply a0 st :
  hashes_nonempty st ->
  fst (hgetall range_order [a0] st) = Value_typ ValueTypNull
  \/ (typ (fst (hgetall range_order [a0] st)) = ValueTypArray
      /\ (2 <= length (array (fst (hgetall range_order [a0] st))))%nat).
Proof.
  intros Hst. simpl. destruct (HSETs st !! bulk a0) as [m|] eqn:E.
  - right. split; [reflexivity|]. simpl.
    rewrite length_fold_append_pair, (Permutation_length (range_order_perm _)).
    specialize (Hst _ _ E).
    destruct (map_to_list m) as [|kv l] eqn:El.
    + apply map_to_list_empty_iff in El. contradiction.
    + simpl. lia.
  - now left.
Qed.

(** C10. Every handler invocation keeps the invariant that each hash
    that is present has at least one field, so it holds in every store
    reached from the empty one; and there the reply of HGETALL is never an
    empty Array: for one argument it is the Null value or an Array of at
    least two elements, and for any other number of arguments it is the
    arity error. *)
Theorem hgetall_never_empty_array
    (cs : list (string * list Value)) (args : list Value) :
  let st := run range_order cs Store_init in
  let reply := fst (hgetall range_order args st) in
  (forall c st0, hashes_nonempty st0 -> hashes_nonempty (invoke range_order c st0))
  /\ hashes_nonempty st
  /\ reply <> Value_array ValueTypArray []
  /\ (length args = 1%nat ->
      reply = Value_typ ValueTypNull
      \/ (typ reply = ValueTypArray /\ (2 <= length (array reply))%nat))
  /\ (length args <> 1%nat -> reply = wrong_args "hgetall").
Proof.
  intros st reply.
  assert (Hst : hashes_nonempty st).
  { apply run_hashes_nonempty. intros h m. simpl. now rewrite lookup_empty. }
  split; [exact invoke_hashes_nonempty|].
  split; [exact Hst|].
  destruct args as [|a0 [|a1 l]]; subst reply.
  - split; [discriminate|]. split; [discriminate|reflexivity].
  - destruct (hgetall_reply a0 st Hst) as [H|[Ht Hl]].
    + rewrite H. split; [discriminate|]. split; [now left|].
      intros Hn. now destruct Hn.
    + split; [|split].
      * intros E. rewrite E in Hl. simpl in Hl. lia.
      * intros _. right. now split.
      * intros Hn. now destruct Hn.
  - split; [discriminate|]. split; [discriminate|reflexivity].
Qed.

End HashInvariant.

Lemma hgetall_never_empty_array_witness :
  let st :=
    run (@rev (string * string))
      [("HSET", [bulk_string "h"; bulk_string "f"; bulk_string "v"]);
       ("HSET", [bulk_string "h"; bulk_string "g"; bulk_string "w"])]
      Store_init in
  let reply := fst (hgetall (@rev (string * string)) [bulk_string "h"] st) in
  (forall c st0,
      hashes_nonempty st0 ->
      hashes_nonempty (invoke (@rev (string * string)) c st0))
  /\ hashes_nonempty st
  /\ reply <> Value_array ValueTypArray []
  /\ (length [bulk_string "h"] = 1%nat ->
      reply = Value_typ ValueTypNull
      \/ (typ reply = ValueTypArray /\ (2 <= length (array reply))%nat))
  /\ (length [bulk_string "h"] <> 1%nat -> reply = wrong_args "hgetall").
Proof.
  apply (hgetall_never_empty_array (@rev (string * string))).
  intros l. symmetry. apply Permutation_rev.
Defined.

(** ** Termination of the decoder *)

(** Every call of the decoder consumes input or fails, so the fuel of the
    embedding is enough as soon as it exceeds the number of bytes that the
    reader can still deliver. *)

Lemma Source_Read_concat (cap : nat) (cs : list bytes) (d : bytes) (cs' : list bytes) :
  Source_Read cap cs = Some (d, cs') -> concat cs = d ++ concat cs'.
Proof.
  induction cs as [|c cs IH]; [discriminate|].
  destruct c as [|x c]; [exact IH|].
  cbn [Source_Read]. intros [= <- <-].
  rewrite <- (take_drop cap (x :: c)) at 1.
  cbn [concat]. destruct (drop cap (x :: c)) as [|y l] eqn:E.
  - now rewrite app_nil_r.
  - cbn [concat]. now rewrite app_assoc.
Qed.

Lemma ReadByte_avail (r : Reader) :
  match ReadByte r with
  | ((_, None), r1) => (avail r1 + 1 = avail r)%nat
  | ((_, Some _), r1) => (avail r1 <= avail r)%nat
  end.
Proof.
  unfold ReadByte, avail. destruct (pending r) as [|c p] eqn:Ep.
  - destruct (Source_Read bufSize (chunks (src r))) as [[d cs]|] eqn:Es.
    + apply Source_Read_concat in Es. rewrite Es, length_app.
      destruct d as [|c p]; cbn [pending src chunks with_chunks length]; lia.
    + rewrite Ep. cbn [length]. lia.
  - cbn [pending src length]. lia.
Qed.

Lemma bufio_Read_avail (n : nat) (r : Reader) :
  (avail (snd (bufio_Read n r)) <= avail r)%nat.
Proof.
  unfold bufio_Read, avail. destruct n as [|n]; [cbn [snd]; lia|].
  destruct (pending r) as [|c p] eqn:Ep.
  - destruct (bufSize <=? S n)%nat.
    + destruct (Source_Read (S n) (chunks (src r))) as [[d cs]|] eqn:Es;
        cbn [snd pending src chunks with_chunks length];
        [|rewrite Ep; cbn [length]; lia].
      apply Source_Read_concat in Es. rewrite Es, length_app. lia.
    + destruct (Source_Read bufSize (chunks (src r))) as [[d cs]|] eqn:Es;
        cbn [snd pending src chunks with_chunks length];
        [|rewrite Ep; cbn [length]; lia].
      apply Source_Read_concat in Es. rewrite Es, length_app, length_drop. lia.
  - cbn [snd pending src]. rewrite length_drop. cbn [length]. lia.
Qed.

Lemma readLine_loop_progress (fuel : nat) :
  forall (line : bytes) (n : Z) (r : Reader),
    (avail r < fuel)%nat ->
    match readLine_loop fuel line n r with
    | Done (_, _, None) r1 => (avail r1 < avail r)%nat
    | Done (_, _, Some _) r1 => (avail r1 <= avail r)%nat
    | Panic _ => False
    | OutOfFuel => False
    end.
Proof.
  induction fuel as [|f IH]; intros line n r Hf; [lia|].
  cbn [readLine_loop]. pose proof (ReadByte_avail r) as Hb.
  destruct (ReadByte r) as [[c [e|]] r1]; [exact Hb|].
  destruct (_ && _); [lia|].
  specialize (IH (line ++ [c]) (n + 1) r1 ltac:(lia)).
  destruct (readLine_loop f (line ++ [c]) (n + 1) r1) as [[[l m] [e|]] r2| |];
    try exact IH; lia.
Qed.

Lemma readInteger_progress (fuel : nat) (r : Reader) :
  (avail r < fuel)%nat ->
  match readInteger fuel r with
  | Done (_, _, None) r1 => (avail r1 < avail r)%nat
  | Done (_, _, Some _) r1 => (avail r1 <= avail r)%nat
  | Panic _ => False
  | OutOfFuel => False
  end.
Proof.
  intros Hf. unfold readInteger, readLine.
  pose proof (readLine_loop_progress fuel [] 0 r Hf) as Hl.
  destruct (readLine_loop fuel [] 0 r) as [[[l m] [e|]] r1| |]; cbn [bind];
    try exact Hl.
  destruct (ParseInt s(l)) as [i64 [e|]]; lia.
Qed.

Lemma readArray_loop_progress
    (Rd : Reader -> outcome Reader (Value * option error)) (f : nat) :
  (forall r, (avail r < f)%nat -> progress r (Rd r)) ->
  forall (k : nat) (i len : Z) (v : Value) (r : Reader),
    (avail r < k)%nat -> (avail r < f)%nat ->
    match readArray_loop Rd k i len v r with
    | Done _ r1 => (avail r1 <= avail r)%nat
    | Panic _ => True
    | OutOfFuel => False
    end.
Proof.
  intros HRd. induction k as [|k IH]; intros i len v r Hk Hf; [lia|].
  cbn [readArray_loop]. destruct (i <? len); [|cbn; lia].
  specialize (HRd r Hf). unfold progress in HRd.
  destruct (Rd r) as [[val [e|]] r1| |]; cbn [bind]; try exact HRd; try exact I.
  specialize (IH (i + 1) len (set_array v (array v ++ [val])) r1
                ltac:(lia) ltac:(lia)).
  destruct (readArray_loop Rd k (i + 1) len _ r1) as [p r2| |];
    try exact IH; lia.
Qed.

Lemma readBulkString_progress (fuel : nat) (r : Reader) :
  (avail r < fuel)%nat ->
  match readBulkString fuel r with
  | Done _ r1 => (avail r1 <= avail r)%nat
  | Panic _ => True
  | OutOfFuel => False
  end.
Proof.
  intros Hf. unfold readBulkString.
  pose proof (readInteger_progress fuel r Hf) as Hi.
  destruct (readInteger fuel r) as [[[len m] [e|]] r1| |]; cbn [bind];
    try exact Hi; try contradiction.
  destruct (makeslice_panics 1 len len); [exact I|].
  pose proof (bufio_Read_avail (Z.to_nat len) r1) as Hb.
  destruct (bufio_Read (Z.to_nat len) r1) as [[data [e|]] r2]; cbn [snd] in Hb;
    [lia|].
  unfold readLine.
  pose proof (readLine_loop_progress fuel [] 0 r2 ltac:(lia)) as Hl.
  destruct (readLine_loop fuel [] 0 r2) as [[[l m'] [e|]] r3| |]; cbn [bind];
    try exact Hl; lia.
Qed.

(** With more fuel than bytes left, [Read] returns or panics; a value
    returned without error has cost at least one byte. *)
Lemma Read_progress (fuel : nat) :
  forall r : Reader, (avail r < fuel)%nat -> progress r (Read fuel r).
Proof.
  induction fuel as [|f IH]; intros r Hf; [lia|].
  cbn [Read]. pose proof (ReadByte_avail r) as Hb. unfold progress.
  destruct (ReadByte r) as [[c [e|]] r1]; [exact Hb|].
  destruct (Ascii.eqb c FB_ARRAY).
  - unfold readArray.
    pose proof (readInteger_progress f r1 ltac:(lia)) as Hi.
    destruct (readInteger f r1) as [[[len m] [e|]] r2| |]; cbn [bind];
      try exact Hi; try contradiction; try lia.
    destruct (makeslice_panics sizeof_Value 0 len); [exact I|].
    pose proof (readArray_loop_progress (Read f) f IH f 0 len
                  (set_array (Value_typ ValueTypArray) []) r2
                  ltac:(lia) ltac:(lia)) as Hl.
    destruct (readArray_loop (Read f) f 0 len _ r2) as [[v [e|]] r3| |];
      try exact Hl; lia.
  - destruct (Ascii.eqb c FB_BULK_STRING); [|lia].
    pose proof (readBulkString_progress f r1 ltac:(lia)) as Hs.
    destruct (readBulkString f r1) as [[v [e|]] r2| |]; try exact Hs; lia.
Qed.

(** The replay of a log and with it the start of [main] need no more fuel
    than the log has bytes: [main] then crashes or serves. *)
Lemma Aof_Read_loop_total
    (fn : Value -> Store -> outcome Store unit) (fuel : nat) :
  (forall v st, fn v st <> OutOfFuel) ->
  forall (reader : Reader) (st : Store),
    (avail reader < fuel)%nat ->
    Aof_Read_loop fuel fn reader st <> OutOfFuel.
Proof.
  intros Hfn. induction fuel as [|f IH]; intros reader st Hf; [lia|].
  cbn [Aof_Read_loop].
  pose proof (Read_progress (S f) reader Hf) as Hp. unfold progress in Hp.
  destruct (Read (S f) reader) as [[v [e|]] r1| |]; try discriminate;
    [destruct (error_eqb e io_EOF); discriminate| |contradiction].
  specialize (Hfn v st).
  destruct (fn v st) as [u st1| |]; try discriminate; [|contradiction].
  apply IH. lia.
Qed.

Lemma main_total range_order ToUpper (fuel : nat)
    (listen_err open_err : option error) (log : bytes) (werr : option error) :
  (length log < fuel)%nat ->
  main range_order ToUpper fuel listen_err open_err log werr <> StartupOutOfFuel.
Proof.
  intros Hf. unfold main.
  destruct listen_err; [discriminate|]. destruct open_err; [discriminate|].
  unfold Aof_Read.
  pose proof (Aof_Read_loop_total (replay_fn range_order ToUpper) fuel) as Ht.
  destruct (Aof_Read_loop fuel _ _ Store_init) as [e [r st]| |] eqn:E;
    try discriminate.
  exfalso. eapply Ht; [| |exact E].
  - intros v st. unfold replay_fn. destruct (array v); [discriminate|].
    destruct (Handlers _ _); discriminate.
  - unfold avail, NewResp, file_Source, NewAof.
    cbn [pending src chunks file concat length]. rewrite app_nil_r. lia.
Qed.

(** ** The decoder on frames it does not support *)

Lemma decode_fails_not_succeeds {St : Type}
    (o : outcome St (Value * option error)) (v : Value) :
  decode_succeeds o v -> ~ decode_fails o.
Proof. intros [st ->] (v' & e & st' & H). discriminate. Qed.

(** C4, as stated, fails: the frame [+OK\r\n] starts with neither [*] nor
    [$], and [Read] returns for it without an error. *)
Lemma read_simple_string_no_error :
  decode 10 (crlf "+OK")
  = Done (Value_zero, None)
      {| pending := crlf "OK"; src := with_chunks (file_Source (crlf "+OK")) [] |}
  /\ ~ decode_fails (decode 10 (crlf "+OK")).
Proof.
  assert (E : decode 10 (crlf "+OK")
              = Done (Value_zero, None)
                  {| pending := crlf "OK";
                     src := with_chunks (file_Source (crlf "+OK")) [] |})
    by (vm_compute; reflexivity).
  split; [exact E|].
  apply (decode_fails_not_succeeds _ Value_zero). rewrite E. now eexists.
Qed.

Section WorkerFacts.

Variable range_order : list (string * string) -> list (string * string).
Variable ToUpper : string -> string.

(** C4, amended. When the first byte of the stream is neither [*] nor
    [$], [Read] consumes that byte only and returns the zero Value with a
    nil error; the connection worker answers such a value with the
    SimpleError "ERR invalid request, expected array" and goes on. *)
Theorem read_unknown_type (fuel : nat) (r r1 : Reader) (c : ascii) (w : World) :
  ReadByte r = ((c, None), r1) ->
  c <> FB_ARRAY -> c <> FB_BULK_STRING ->
  Read (S fuel) r = Done (Value_zero, None) r1
  /\ handleCommand range_order ToUpper Value_zero w
     = Writer_Write
         (Value_str ValueTypSimpleError "ERR invalid request, expected array") w.
Proof.
  intros Hb Ha Hs. split; [|reflexivity].
  simpl. rewrite Hb.
  destruct (Ascii.eqb_spec c FB_ARRAY); [contradiction|].
  destruct (Ascii.eqb_spec c FB_BULK_STRING); [contradiction|].
  reflexivity.
Qed.

End WorkerFacts.

Lemma read_unknown_type_witness :
  Read 1 (NewResp (file_Source (crlf "+OK")))
  = Done (Value_zero, None)
      {| pending := crlf "OK"; src := with_chunks (file_Source (crlf "+OK")) [] |}
  /\ handleCommand (fun l => l) ToUpper_ascii Value_zero
       {| store := Store_init; aof := NewAof [] None; conn_out := []; events := [] |}
     = Writer_Write
         (Value_str ValueTypSimpleError "ERR invalid request, expected array")
         {| store := Store_init; aof := NewAof [] None; conn_out := []; events := [] |}.
Proof.
  apply (read_unknown_type (fun l => l) ToUpper_ascii 0
           (NewResp (file_Source (crlf "+OK"))) _ "+"%char).
  - reflexivity.
  - discriminate.
  - discriminate.
Defined.

(** ** Lengths *)

(** An Array frame whose length line parses to a negative integer makes
    [readArray] panic in [make]. *)
Lemma readArray_negative_length
    (Rd : Reader -> outcome Reader (Value * option error))
    (fuel : nat) (r r1 : Reader) (line : bytes) (n len : Z) :
  readLine fuel r = Done (line, n, None) r1 ->
  ParseInt s(line) = (len, None) ->
  len < 0 ->
  readArray Rd fuel r = Panic "makeslice: cap out of range".
Proof.
  intros Hl Hp Hn. unfold readArray, readInteger. rewrite Hl. simpl.
  rewrite Hp. simpl. unfold makeslice_panics.
  destruct (Z.ltb_spec len 0); [reflexivity|lia].
Qed.

(** C7. The Array frame [*-1\r\n] carries the length -1; decoding it does
    not return an error but panics, and so does a connection worker or the
    replay of a log that reads it. *)
Theorem negative_array_length_panics :
  readLine 9 {| pending := crlf "-1"; src := with_chunks (file_Source (crlf "*-1")) [] |}
  = Done (b("-1"), 4, None)
      {| pending := []; src := with_chunks (file_Source (crlf "*-1")) [] |}
  /\ ParseInt "-1" = (-1, None)
  /\ decode 10 (crlf "*-1") = Panic "makeslice: cap out of range"
  /\ ~ decode_fails (decode 10 (crlf "*-1"))
  /\ handleConnection (fun l => l) ToUpper_ascii 10
       (NewResp (file_Source (crlf "*-1")))
       {| store := Store_init; aof := NewAof [] None; conn_out := []; events := [] |}
     = Panic "makeslice: cap out of range"
  /\ main (fun l => l) ToUpper_ascii 10 None None (crlf "*-1") None
     = Crashed "makeslice: cap out of range".
Proof.
  assert (E : decode 10 (crlf "*-1") = Panic "makeslice: cap out of range")
    by (vm_compute; reflexivity).
  repeat split; try (vm_compute; reflexivity).
  rewrite E. intros (v & e & st & H). discriminate.
Qed.

(** C8. A BulkString frame decodes successfully although its terminator
    is not CRLF ([$1\r\na\rZ]: [readLine] asks for a CR followed by any
    byte), although bytes stand between the payload and the CRLF
    ([$3\r\nabcdef\r\n]), and although fewer payload bytes than declared
    exist: when the frame [$5\r\nab] and then [\r\n] arrive in two pieces
    and the stream ends, the value returned has a payload of five bytes,
    [ab] and three NUL bytes. *)
Theorem bulk_string_short_read_accepted :
  decode_succeeds (decode 10 (crlf "$1" ++ b("a") ++ [CR; "Z"%char]))
    (bulk_string "a")
  /\ decode_succeeds (decode 10 (crlf "$3" ++ crlf "abcdef")) (bulk_string "abc")
  /\ decode_succeeds
       (Read 10 (NewResp {| chunks := [crlf "$5" ++ b("ab"); [CR; LF]];
                            final := io_EOF |}))
       (bulk_string s(b("ab") ++ [NUL; NUL; NUL]))
  /\ ~ decode_fails (decode 10 (crlf "$1" ++ b("a") ++ [CR; "Z"%char])).
Proof.
  assert (E : decode_succeeds (decode 10 (crlf "$1" ++ b("a") ++ [CR; "Z"%char]))
                (bulk_string "a"))
    by (eexists; vm_compute; reflexivity).
  repeat split; try exact E; try (eexists; vm_compute; reflexivity).
  now apply (decode_fails_not_succeeds _ _ E).
Qed.

(** ** Replay *)

(** C5. [Aof.Read] stops at a decode failure that is not [io.EOF] and
    returns its error, but [main] drops the value [aof.Read] returns: once
    [net.Listen] and [NewAof] have succeeded, no replay error makes it
    return. On [broken_log] the replay ends with the syntax error of the
    second record, and [main] goes on to serve connections with the store
    of the first record alone. *)
Theorem replay_error_is_dropped :
  (forall range_order ToUpper fuel log werr,
      main range_order ToUpper fuel None None log werr <> Returned)
  /\ (exists a st,
        Aof_Read 100 (replay_fn (fun l => l) ToUpper_ascii)
          (NewAof broken_log None) Store_init
        = Done (Some ErrSyntax) (a, st)
        /\ main (fun l => l) ToUpper_ascii 100 None None broken_log None
           = Serving st a
        /\ SETs st !! "k" = Some "v"
        /\ SETs st !! "k2" = None).
Proof.
  split.
  - intros range_order ToUpper fuel log werr. unfold main.
    destruct (Aof_Read fuel _ _ _) as [e [a st]| |]; discriminate.
  - destruct (Aof_Read 100 (replay_fn (fun l => l) ToUpper_ascii)
                (NewAof broken_log None) Store_init) as [e [a st]| |] eqn:E;
      try (vm_compute in E; discriminate).
    exists a, st. unfold main. rewrite E.
    assert (He : e = Some ErrSyntax)
      by (vm_compute in E; now inversion E).
    assert (Hk : SETs st !! "k" = Some "v" /\ SETs st !! "k2" = None).
    { vm_compute in E. inversion E; subst. split; vm_compute; reflexivity. }
    subst e. repeat split; apply Hk.
Qed.

(** ** Persistence policy of the connection worker *)

Lemma File_Write_appends (data : bytes) (a : Aof) :
  write_error a = None ->
  offset a = length (file a) ->
  file (snd (File_Write data a)) = file a ++ data
  /\ offset (snd (File_Write data a)) = length (file a ++ data).
Proof.
  intros Hw Ho. unfold File_Write. rewrite Hw. simpl. rewrite Ho.
  rewrite firstn_all, drop_ge, app_nil_r, length_app by lia. now split.
Qed.

Section Persistence.

Variable range_order : list (string * string) -> list (string * string).
Variable ToUpper : string -> string.

(** C6. For a command frame (an Array with at least one element) the
    worker calls [aof.Write] if and only if the upper-cased name is SET
    or HSET, and it does so before it calls the handler: the write comes
    first among the events of the iteration, a successful write leaves
    the encoded frame in the log (at its end, when the descriptor stands
    there) and only then the handler runs on the store; a failed write
    is answered with an error and the handler does not run. *)
Theorem aof_write_before_handler
    (value v0 : Value) (args : list Value) (w : World) :
  typ value = ValueTypArray ->
  array value = v0 :: args ->
  let command := ToUpper (bulk v0) in
  let w' := handleCommand range_order ToUpper value w in
  let mutating := command = "SET" \/ command = "HSET" in
  exists evs : list event,
    events w' = events w ++ evs
    /\ ((exists x, In (EvAofWrite x) evs) <-> mutating)
    /\ (forall i j x c a,
           evs !! i = Some (EvAofWrite x) -> evs !! j = Some (EvHandler c a) ->
           (i < j)%nat)
    /\ (mutating ->
        exists handler,
          Handlers range_order command = Some handler
          /\ match write_error (aof w) with
             | None =>
                 evs = [EvAofWrite value; EvHandler command args;
                        EvReply (fst (handler args (store w)))]
                 /\ aof w' = snd (Aof_Write value (aof w))
                 /\ store w' = snd (handler args (store w))
                 /\ (offset (aof w) = length (file (aof w)) ->
                     file (aof w') = file (aof w) ++ Marshal value)
             | Some e =>
                 evs = [EvAofWrite value;
                        EvReply (Value_str ValueTypSimpleError
                                   "ERR failed to persist data")]
                 /\ aof w' = aof w /\ store w' = store w
             end)
    /\ (~ mutating -> aof w' = aof w).
Proof.
  intros Ht Ha command w' mutating. subst w'. unfold handleCommand.
  rewrite Ht, Ha. simpl. fold command.
  destruct (String.eqb_spec command "SET") as [Es|Ns];
    [|destruct (String.eqb_spec command "HSET") as [Eh|Nh]].
  - (* SET *)
    rewrite Es. simpl. unfold World_Aof_Write, Aof_Write, File_Write.
    destruct (write_error (aof w)) as [e|] eqn:Hw; simpl.
    + eexists. split; [rewrite <- app_assoc; reflexivity|].
      split; [split; [intros _; now left|intros _; eexists; now left]|].
      split; [intros [|[|i]] [|[|j]] x c a; simpl; intros; try discriminate; lia|].
      split; [|intros H; destruct H; now left].
      intros _. eexists. split; [reflexivity|]. repeat split.
    + unfold World_handler. simpl.
      destruct (set args (store w)) as [result st] eqn:Hs. simpl.
      eexists. split; [rewrite <- !app_assoc; reflexivity|].
      split; [split; [intros _; now left|intros _; eexists; now left]|].
      split; [intros [|[|[|i]]] [|[|[|j]]] x c a; simpl; intros;
              try discriminate; lia|].
      split; [|intros H; destruct H; now left].
      intros _. eexists. split; [reflexivity|]. rewrite Hs.
      repeat split. intros Ho.
      rewrite Ho, firstn_all, drop_ge, app_nil_r by lia. reflexivity.
  - (* HSET *)
    rewrite Eh. simpl. unfold World_Aof_Write, Aof_Write, File_Write.
    destruct (write_error (aof w)) as [e|] eqn:Hw; simpl.
    + eexists. split; [rewrite <- app_assoc; reflexivity|].
      split; [split; [intros _; now right|intros _; eexists; now left]|].
      split; [intros [|[|i]] [|[|j]] x c a; simpl; intros; try discriminate; lia|].
      split; [|intros H; destruct H; now right].
      intros _. eexists. split; [reflexivity|]. repeat split.
    + unfold World_handler. simpl.
      destruct (hset args (store w)) as [result st] eqn:Hs. simpl.
      eexists. split; [rewrite <- !app_assoc; reflexivity|].
      split; [split; [intros _; now right|intros _; eexists; now left]|].
      split; [intros [|[|[|i]]] [|[|[|j]]] x c a; simpl; intros;
              try discriminate; lia|].
      split; [|intros H; destruct H; now right].
      intros _. eexists. split; [reflexivity|]. rewrite Hs.
      repeat split. intros Ho.
      rewrite Ho, firstn_all, drop_ge, app_nil_r by lia. reflexivity.
  - (* any other name *)
    assert (Hm : ~ mutating) by (intros [H|H]; contradiction).
    destruct (Handlers range_order command) as [handler|] eqn:Hh; simpl.
    + unfold World_handler. simpl.
      destruct (handler args (store w)) as [result st] eqn:Hs. simpl.
      eexists. split; [rewrite <- !app_assoc; reflexivity|].
      split; [split; [intros [x [H|[H|[]]]]; discriminate|intros H; contradiction]|].
      split; [intros [|[|i]] [|[|j]] x c a; simpl; intros; try discriminate; lia|].
      split; [intros H; contradiction|reflexivity].
    + eexists. split; [reflexivity|].
      split; [split; [intros [x [H|[]]]; discriminate|intros H; contradiction]|].
      split; [intros [|i] [|j] x c a; simpl; intros; try discriminate; lia|].
      split; [intros H; contradiction|reflexivity].
Qed.

End Persistence.

Lemma aof_write_before_handler_witness :
  let value := request ["set"; "k"; "v"] in
  let command := ToUpper_ascii "set" in
  let w' := handleCommand (fun l => l) ToUpper_ascii value World_init in
  let mutating := command = "SET" \/ command = "HSET" in
  exists evs : list event,
    events w' = events World_init ++ evs
    /\ ((exists x, In (EvAofWrite x) evs) <-> mutating)
    /\ (forall i j x c a,
           evs !! i = Some (EvAofWrite x) -> evs !! j = Some (EvHandler c a) ->
           (i < j)%nat)
    /\ (mutating ->
        exists handler,
          Handlers (fun l => l) command = Some handler
          /\ match write_error (aof World_init) with
             | None =>
                 evs = [EvAofWrite value;
                        EvHandler command [bulk_string "k"; bulk_string "v"];
                        EvReply (fst (handler [bulk_string "k"; bulk_string "v"]
                                        (store World_init)))]
                 /\ aof w' = snd (Aof_Write value (aof World_init))
                 /\ store w'
                    = snd (handler [bulk_string "k"; bulk_string "v"]
                             (store World_init))
                 /\ (offset (aof World_init) = length (file (aof World_init)) ->
                     file (aof w') = file (aof World_init) ++ Marshal value)
             | Some e =>
                 evs = [EvAofWrite value;
                        EvReply (Value_str ValueTypSimpleError
                                   "ERR failed to persist data")]
                 /\ aof w' = aof World_init /\ store w' = store World_init
             end)
    /\ (~ mutating -> aof w' = aof World_init).
Proof.
  apply (aof_write_before_handler (fun l => l) ToUpper_ascii
           (request ["set"; "k"; "v"]) (bulk_string "set")
           [bulk_string "k"; bulk_string "v"] World_init).
  - reflexivity.
  - reflexivity.
Defined.

(** ** Decimal lengths: [ParseInt] reads back what [Itoa] prints *)

Lemma digit_of_spec (d : Z) :
  0 <= d < 10 -> is_digit (digit_of d) = true /\ digit_val (digit_of d) = d.
Proof.
  intros H.
  assert (C : d = 0 \/ d = 1 \/ d = 2 \/ d = 3 \/ d = 4 \/ d = 5 \/ d = 6
              \/ d = 7 \/ d = 8 \/ d = 9) by lia.
  repeat (destruct C as [->|C]; [split; reflexivity|]). subst. split; reflexivity.
Qed.

Lemma is_digit_not_CR (c : ascii) : is_digit c = true -> c <> CR.
Proof. intros H ->. discriminate. Qed.

Lemma is_digit_not_sign (c : ascii) :
  is_digit c = true -> Ascii.eqb c "+" = false /\ Ascii.eqb c "-" = false.
Proof.
  intros H. split; apply Ascii.eqb_neq; intros ->; discriminate.
Qed.

Lemma format_digits_digits (fuel : nat) (n : Z) (acc : bytes) :
  Forall (fun c => is_digit c = true) acc ->
  Forall (fun c => is_digit c = true) (format_digits fuel n acc).
Proof.
  revert n acc. induction fuel as [|f IH]; intros n acc Hacc; simpl.
  - constructor; [|exact Hacc]. apply digit_of_spec. apply Z.mod_pos_bound. lia.
  - assert (Hd : Forall (fun c => is_digit c = true) (digit_of (n mod 10) :: acc)).
    { constructor; [|exact Hacc]. apply digit_of_spec. apply Z.mod_pos_bound. lia. }
    destruct (n <? 10); [exact Hd|]. apply IH. exact Hd.
Qed.

Lemma format_digits_cons (fuel : nat) (n : Z) (acc : bytes) :
  exists c l, format_digits fuel n acc = c :: l.
Proof.
  revert n acc. induction fuel as [|f IH]; intros n acc; simpl.
  - eauto.
  - destruct (n <? 10); [eauto|apply IH].
Qed.

Lemma ParseUint_loop_digit (d n : Z) (acc : bytes) :
  0 <= d < 10 -> 0 <= n -> n * 10 + d <= maxUint64 ->
  ParseUint_loop (digit_of d :: acc) n = ParseUint_loop acc (n * 10 + d).
Proof.
  intros Hd Hn Hmax. destruct (digit_of_spec d Hd) as [H1 H2].
  simpl. rewrite H1, H2.
  destruct (Z.leb_spec (maxUint64 / 10 + 1) n) as [Hc|Hc].
  - exfalso. change (maxUint64 / 10 + 1) with 1844674407370955162 in Hc.
    change maxUint64 with 18446744073709551615 in Hmax. lia.
  - destruct (Z.ltb_spec maxUint64 (n * 10 + d)); [lia|reflexivity].
Qed.

(** Parsing the digits printed for [n] from the accumulator 0 reaches the
    accumulator [n]: the printing loop divides by ten what the parsing loop
    multiplies. *)
Lemma ParseUint_loop_format_digits (fuel : nat) (n : Z) (acc : bytes) :
  0 <= n < 10 ^ Z.of_nat (S fuel) -> n <= maxUint64 ->
  ParseUint_loop (format_digits fuel n acc) 0 = ParseUint_loop acc n.
Proof.
  revert n acc. induction fuel as [|f IH]; intros n acc Hn Hmax.
  - change (10 ^ Z.of_nat 1) with 10 in Hn.
    cbn [format_digits]. rewrite Z.mod_small by lia.
    rewrite ParseUint_loop_digit by lia. f_equal.
  - cbn [format_digits]. destruct (Z.ltb_spec n 10) as [Hlt|Hge].
    + rewrite Z.mod_small by lia.
      rewrite ParseUint_loop_digit by lia. f_equal.
    + assert (Hpow : 10 ^ Z.of_nat (S (S f)) = 10 * 10 ^ Z.of_nat (S f)).
      { rewrite (Nat2Z.inj_succ (S f)), Z.pow_succ_r by lia. reflexivity. }
      pose proof (Z.div_mod n 10 ltac:(lia)) as Hdm.
      pose proof (Z.mod_pos_bound n 10 ltac:(lia)) as Hmod.
      assert (Hq : 0 <= n / 10) by (apply Z.div_pos; lia).
      rewrite IH by lia.
      rewrite ParseUint_loop_digit by lia. f_equal. lia.
Qed.

Lemma ParseInt_Itoa (n : Z) :
  0 <= n < 2 ^ 63 -> ParseInt (Itoa n) = (n, None).
Proof.
  intros Hn. unfold Itoa. destruct (Z.ltb_spec n 0) as [|_]; [lia|].
  unfold ParseInt. rewrite list_ascii_of_string_of_list_ascii.
  pose proof (format_digits_digits 20 n [] (List.Forall_nil _)) as Hd.
  assert (Hp : ParseUint_loop (format_digits 20 n []) 0 = (n, None)).
  { rewrite ParseUint_loop_format_digits; [reflexivity| |].
    - split; [lia|]. eapply Z.lt_trans; [apply Hn|]. reflexivity.
    - unfold maxUint64. lia. }
  destruct (format_digits_cons 20 n []) as (c & l & E). rewrite E in *.
  inversion Hd as [|? ? Hc Hl]; subst.
  destruct (is_digit_not_sign c Hc) as [-> ->]. simpl orb. cbv iota.
  unfold ParseUint. rewrite Hp. simpl negb. simpl andb.
  destruct (Z.leb_spec (2 ^ 63) n); [lia|reflexivity].
Qed.

Lemma Itoa_digits (n : Z) :
  0 <= n -> Forall (fun c => c <> CR) b(Itoa n).
Proof.
  intros Hn. unfold Itoa. destruct (Z.ltb_spec n 0) as [|_]; [lia|].
  rewrite list_ascii_of_string_of_list_ascii.
  eapply List.Forall_impl; [apply is_digit_not_CR|].
  apply format_digits_digits. constructor.
Qed.

Lemma length_Itoa_pos (n : Z) : (1 <= length b(Itoa n))%nat.
Proof.
  unfold Itoa. destruct (n <? 0); rewrite list_ascii_of_string_of_list_ascii.
  - cbn [length]. lia.
  - destruct (format_digits_cons 20 n []) as (c & l & ->). cbn [length]. lia.
Qed.

(** ** Reading from the buffer *)

Lemma length_list_ascii_of_string (s : string) :
  length b(s) = String.length s.
Proof. induction s as [|c s IH]; simpl; congruence. Qed.

(** While no CR has been read, the test of [readLine] on the byte before
    the last fails. *)
Lemma readLine_test_false (acc : bytes) (c : ascii) :
  Forall (fun x => x <> CR) acc ->
  (2 <=? length (acc ++ [c]))%nat
  && Ascii.eqb (nth (length (acc ++ [c]) - 2) (acc ++ [c]) NUL) CR = false.
Proof.
  intros Hacc. destruct acc as [|y acc'] using rev_ind; [reflexivity|].
  apply Forall_app in Hacc as [_ Hy]. inversion Hy as [|? ? Hne _]; subst.
  rewrite !length_app. simpl length.
  replace (length acc' + 1 + 1 - 2)%nat with (length acc' + 0)%nat by lia.
  rewrite <- app_assoc, app_nth2_plus. cbn [nth app].
  apply Ascii.eqb_neq in Hne. rewrite Hne. apply andb_false_r.
Qed.

Lemma readLine_test_true (acc : bytes) (x : ascii) :
  (2 <=? length ((acc ++ [CR]) ++ [x]))%nat
  && Ascii.eqb (nth (length ((acc ++ [CR]) ++ [x]) - 2) ((acc ++ [CR]) ++ [x]) NUL) CR
  = true
  /\ take (length ((acc ++ [CR]) ++ [x]) - 2) ((acc ++ [CR]) ++ [x]) = acc.
Proof.
  rewrite !length_app. simpl length.
  replace (length acc + 1 + 1 - 2)%nat with (length acc + 0)%nat by lia.
  rewrite <- !app_assoc. split.
  - rewrite app_nth2_plus. cbn [nth app].
    rewrite Ascii.eqb_refl, andb_true_r. apply Nat.leb_le. lia.
  - rewrite Nat.add_0_r. apply take_app_length.
Qed.

(** [readLine] on a buffer that holds a line without CR, then a CR and one
    more byte: the line is returned and the buffer is left after that
    byte. *)
Lemma readLine_loop_buffered (line : bytes) :
  forall (acc : bytes) (n : Z) (fuel : nat) (x : ascii) (rest : bytes) (s : Source),
    Forall (fun c => c <> CR) acc ->
    Forall (fun c => c <> CR) line ->
    (length line + 2 <= fuel)%nat ->
    readLine_loop fuel acc n {| pending := line ++ CR :: x :: rest; src := s |}
    = Done (acc ++ line, n + Z.of_nat (length line) + 2, None)
        {| pending := rest; src := s |}.
Proof.
  induction line as [|c line IH]; intros acc n fuel x rest s Hacc Hline Hfuel.
  - destruct fuel as [|[|f]]; simpl in Hfuel; try lia.
    cbn [readLine_loop app ReadByte pending src].
    rewrite (readLine_test_false acc CR Hacc).
    destruct (readLine_test_true acc x) as [-> ->].
    rewrite app_nil_r. do 2 f_equal. f_equal. simpl. lia.
  - destruct fuel as [|f]; simpl in Hfuel; try lia.
    inversion Hline as [|? ? Hc Hl]; subst.
    cbn [readLine_loop app ReadByte pending src].
    rewrite (readLine_test_false acc c Hacc).
    rewrite IH; [|apply Forall_app; split; [exact Hacc|now constructor]
                 |exact Hl|lia].
    rewrite <- app_assoc. simpl app. do 2 f_equal. f_equal.
    cbn [length]. lia.
Qed.

Lemma readInteger_buffered (n : Z) (fuel : nat) (rest : bytes) (s : Source) :
  0 <= n < 2 ^ 63 ->
  (length b(Itoa n) + 2 <= fuel)%nat ->
  readInteger fuel {| pending := b(Itoa n) ++ CR :: LF :: rest; src := s |}
  = Done (n, Z.of_nat (length b(Itoa n)) + 2, None) {| pending := rest; src := s |}.
Proof.
  intros Hn Hfuel. unfold readInteger, readLine.
  rewrite (readLine_loop_buffered b(Itoa n) [] 0 fuel LF rest s);
    [|constructor|apply Itoa_digits; lia|exact Hfuel].
  cbn [bind app]. rewrite string_of_list_ascii_of_string, ParseInt_Itoa by exact Hn.
  reflexivity.
Qed.

(** [bufio.Reader.Read] finds all the bytes it is asked for in the
    buffer, when the buffer holds them and at least one byte more. *)
Lemma bufio_Read_buffered (data : bytes) (x : ascii) (rest : bytes) (s : Source) :
  bufio_Read (length data) {| pending := data ++ x :: rest; src := s |}
  = ((data, None), {| pending := x :: rest; src := s |}).
Proof.
  unfold bufio_Read. destruct data as [|d data]; [reflexivity|].
  cbn [length pending src app].
  change (d :: data ++ x :: rest) with ((d :: data) ++ x :: rest).
  change (S (length data)) with (length (d :: data)).
  rewrite take_app_length, drop_app_length. reflexivity.
Qed.

(** ** Round trip *)

Lemma fold_left_app_concat {A : Type} (f : A -> bytes) (l : list A) (init : bytes) :
  fold_left (fun acc x => acc ++ f x) l init = init ++ concat (List.map f l).
Proof.
  revert init. induction l as [|x l IH]; intros init; simpl.
  - now rewrite app_nil_r.
  - now rewrite IH, app_assoc.
Qed.

Lemma Marshal_Array (v : Value) :
  typ v = ValueTypArray ->
  Marshal v
  = FB_ARRAY :: b(Itoa (Z.of_nat (length (array v))))
      ++ CR :: LF :: concat (List.map Marshal (array v)).
Proof.
  intros Ht. destruct v as [t s n bk a]. simpl in Ht. subst t.
  cbn [Marshal typ]. change (String.eqb ValueTypArray ValueTypArray) with true.
  cbv iota. unfold marshalArray. cbn [array].
  rewrite fold_left_app_concat. rewrite <- !app_assoc. reflexivity.
Qed.

Lemma Marshal_BulkString (v : Value) :
  typ v = ValueTypBulkString ->
  Marshal v
  = FB_BULK_STRING :: b(Itoa (Z.of_nat (String.length (bulk v))))
      ++ CR :: LF :: b(bulk v) ++ [CR; LF].
Proof.
  intros Ht. destruct v as [t s n bk a]. simpl in Ht. subst t.
  cbn [Marshal typ].
  change (String.eqb ValueTypBulkString ValueTypArray) with false.
  change (String.eqb ValueTypBulkString ValueTypBulkString) with true.
  cbv iota. unfold marshalBulkString. cbn [bulk].
  rewrite <- !app_assoc. reflexivity.
Qed.

Lemma decodable_cases (v : Value) :
  decodable v = true ->
  (typ v = ValueTypArray /\ forallb decodable (array v) = true
   /\ payload v = Value_array ValueTypArray (List.map payload (array v)))
  \/ (typ v = ValueTypBulkString
      /\ payload v = Value_bulk ValueTypBulkString (bulk v)).
Proof.
  destruct v as [t s n bk a]. cbn [decodable payload typ array bulk].
  destruct (String.eqb_spec t ValueTypArray) as [->|Na].
  - intros H. left. now repeat split.
  - destruct (String.eqb_spec t ValueTypBulkString) as [->|Nb]; [|discriminate].
    intros _. right. now split.
Qed.

Lemma Marshal_decodable_pos (v : Value) :
  decodable v = true -> (1 <= length (Marshal v))%nat.
Proof.
  intros H. destruct (decodable_cases v H) as [(Ht & _ & _)|(Ht & _)].
  - rewrite (Marshal_Array v Ht). cbn [length]. lia.
  - rewrite (Marshal_BulkString v Ht). cbn [length]. lia.
Qed.

Lemma length_concat_Marshal_elem (x : Value) (a : list Value) :
  In x a -> (length (Marshal x) <= length (concat (List.map Marshal a)))%nat.
Proof.
  induction a as [|y a IH]; intros Hin; [destruct Hin|].
  cbn [List.map concat]. rewrite length_app.
  destruct Hin as [->|Hin]; [lia|]. specialize (IH Hin). lia.
Qed.

Lemma length_concat_Marshal_count (a : list Value) :
  forallb decodable a = true ->
  (length a <= length (concat (List.map Marshal a)))%nat.
Proof.
  induction a as [|y a IH]; intros H; [simpl; lia|].
  cbn [forallb] in H. apply andb_prop in H as [Hy Ha].
  cbn [List.map concat length]. rewrite length_app.
  pose proof (Marshal_decodable_pos y Hy). specialize (IH Ha). lia.
Qed.

Lemma set_array_app_nil (v : Value) : set_array v (array v ++ []) = v.
Proof. destruct v. unfold set_array. cbn. now rewrite app_nil_r. Qed.

(** The loop of [readArray] over a buffer that holds the encodings of
    [elems], each of which the call [Rd] decodes. *)
Lemma readArray_loop_buffered
    (Rd : Reader -> outcome Reader (Value * option error)) (elems : list Value) :
  Forall (fun x => forall rest s,
              Rd {| pending := Marshal x ++ rest; src := s |}
              = Done (payload x, None) {| pending := rest; src := s |}) elems ->
  forall (k : nat) (i : Z) (v0 : Value) (rest : bytes) (s : Source),
    (length elems <= k)%nat ->
    readArray_loop Rd k i (i + Z.of_nat (length elems)) v0
      {| pending := concat (List.map Marshal elems) ++ rest; src := s |}
    = Done (set_array v0 (array v0 ++ List.map payload elems), None)
        {| pending := rest; src := s |}.
Proof.
  induction 1 as [|x elems Hx _ IH]; intros k i v0 rest s Hk.
  - cbn [length List.map concat app]. 
    destruct k; cbn [readArray_loop];
      (destruct (Z.ltb_spec i (i + Z.of_nat 0)); [simpl in *; lia|]);
      now rewrite set_array_app_nil.
  - destruct k as [|k]; [simpl in Hk; lia|].
    cbn [readArray_loop].
    destruct (Z.ltb_spec i (i + Z.of_nat (length (x :: elems))));
      [|cbn [length] in *; lia].
    cbn [List.map concat]. rewrite <- app_assoc, Hx. cbn [bind].
    replace (i + Z.of_nat (length (x :: elems)))
      with (i + 1 + Z.of_nat (length elems)) by (cbn [length]; lia).
    rewrite IH by (simpl in Hk; lia).
    unfold set_array. cbn [typ str num bulk array].
    rewrite <- app_assoc. reflexivity.
Qed.

Lemma readBulkString_buffered (bk : string) (fuel : nat) (rest : bytes) (s : Source) :
  (String.length bk <= bufSize)%nat ->
  (length b(Itoa (Z.of_nat (String.length bk))) + 2 <= fuel)%nat ->
  readBulkString fuel
    {| pending := b(Itoa (Z.of_nat (String.length bk)))
                    ++ CR :: LF :: b(bk) ++ CR :: LF :: rest;
       src := s |}
  = Done (Value_bulk ValueTypBulkString bk, None) {| pending := rest; src := s |}.
Proof.
  intros Hlen Hfuel. unfold bufSize in Hlen.
  assert (Hn : 0 <= Z.of_nat (String.length bk) < 2 ^ 63) by lia.
  unfold readBulkString. rewrite readInteger_buffered by assumption.
  cbn [bind].
  assert (Hm : makeslice_panics 1 (Z.of_nat (String.length bk))
                 (Z.of_nat (String.length bk)) = false).
  { unfold makeslice_panics, maxAlloc. lia. }
  rewrite Hm, Nat2Z.id, <- (length_list_ascii_of_string bk).
  rewrite bufio_Read_buffered. rewrite Nat.sub_diag. cbn [repeat].
  rewrite app_nil_r, string_of_list_ascii_of_string.
  unfold readLine.
  change (CR :: LF :: rest) with ([] ++ CR :: LF :: rest).
  rewrite (readLine_loop_buffered [] [] 0 fuel LF rest s);
    [reflexivity|constructor|constructor|simpl; lia].
Qed.

(** [Read] on a buffer that starts with the encoding of a decodable value
    returns its kind and payload and leaves the buffer after the
    encoding. *)
Lemma Read_buffered (v : Value) :
  decodable v = true ->
  (length (Marshal v) <= bufSize)%nat ->
  forall (fuel : nat) (rest : bytes) (s : Source),
    (length (Marshal v) < fuel)%nat ->
    Read fuel {| pending := Marshal v ++ rest; src := s |}
    = Done (payload v, None) {| pending := rest; src := s |}.
Proof.
  induction v as [t st n bk a IH] using Value_ind_nested.
  intros Hd Hlen fuel rest s Hfuel.
  destruct fuel as [|f]; [lia|].
  destruct (decodable_cases _ Hd) as [(Ht & Ha & Hp)|(Ht & Hp)]; rewrite Hp.
  - (* Array *)
    rewrite (Marshal_Array _ Ht) in *. cbn [array] in *.
    cbn [length] in Hlen, Hfuel. rewrite length_app in Hlen, Hfuel.
    cbn [length] in Hlen, Hfuel.
    pose proof (length_concat_Marshal_count a Ha) as Hcount.
    unfold bufSize in Hlen.
    rewrite <- app_comm_cons. cbn [Read ReadByte pending src].
    change (Ascii.eqb FB_ARRAY FB_ARRAY) with true. cbv iota.
    unfold readArray. rewrite <- app_assoc, <- !app_comm_cons.
    rewrite readInteger_buffered by lia. cbn [bind].
    assert (Hm : makeslice_panics sizeof_Value 0 (Z.of_nat (length a)) = false).
    { unfold makeslice_panics, maxAlloc, sizeof_Value. lia. }
    rewrite Hm.
    change (Z.of_nat (length a)) with (0 + Z.of_nat (length a)).
    rewrite readArray_loop_buffered; [reflexivity| |lia].
    apply List.Forall_forall. intros x Hx rest' s'.
    rewrite List.Forall_forall in IH.
    pose proof (length_concat_Marshal_elem x a Hx) as Hxl.
    apply (IH x Hx).
    + rewrite forallb_forall in Ha. now apply Ha.
    + unfold bufSize. lia.
    + lia.
  - (* BulkString *)
    rewrite (Marshal_BulkString _ Ht) in *. cbn [bulk] in *.
    repeat first [rewrite length_app in Hlen, Hfuel
                 |rewrite length_cons in Hlen, Hfuel].
    cbn [length] in Hlen, Hfuel.
    pose proof (length_list_ascii_of_string bk) as Hbk. unfold bufSize in *.
    rewrite <- app_comm_cons. cbn [Read ReadByte pending src].
    change (Ascii.eqb FB_BULK_STRING FB_ARRAY) with false.
    change (Ascii.eqb FB_BULK_STRING FB_BULK_STRING) with true. cbv iota.
    rewrite <- !app_assoc, <- !app_comm_cons, <- app_assoc.
    cbn [app]. apply readBulkString_buffered; unfold bufSize; lia.
Qed.

(** The first byte is read the same way from a short file and from a
    buffer that already holds it. *)
Lemma ReadByte_file (data : bytes) :
  data <> [] -> (length data <= bufSize)%nat ->
  ReadByte (NewResp (file_Source data))
  = ReadByte {| pending := data; src := with_chunks (file_Source data) [] |}.
Proof.
  intros Hne Hlen. destruct data as [|c p]; [contradiction|].
  unfold ReadByte, NewResp, file_Source. cbn [pending src chunks Source_Read].
  rewrite take_ge, drop_ge by exact Hlen. reflexivity.
Qed.

Lemma Read_file (fuel : nat) (data : bytes) :
  data <> [] -> (length data <= bufSize)%nat ->
  decode fuel data
  = Read fuel {| pending := data; src := with_chunks (file_Source data) [] |}.
Proof.
  intros Hne Hlen. unfold decode. destruct fuel as [|f]; [reflexivity|].
  cbn [Read]. now rewrite ReadByte_file.
Qed.

Lemma payload_typ (v : Value) : decodable v = true -> typ (payload v) = typ v.
Proof.
  intros H. destruct (decodable_cases v H) as [(Ht & _ & ->)|(Ht & ->)];
    now rewrite Ht.
Qed.

Lemma payload_idem (v : Value) : payload (payload v) = payload v.
Proof.
  induction v as [t st n bk a IH] using Value_ind_nested.
  cbn [payload typ array bulk str num].
  unfold Value_array, Value_bulk, Value_str, Value_typ.
  destruct (String.eqb_spec t ValueTypArray) as [->|Na].
  - cbn [payload typ array]. change (String.eqb ValueTypArray ValueTypArray) with true.
    cbv iota. unfold Value_array. f_equal.
    rewrite List.map_map. apply List.map_ext_Forall. exact IH.
  - destruct (String.eqb_spec t ValueTypBulkString) as [->|Nb]; [reflexivity|].
    destruct (String.eqb_spec t ValueTypSimpleString) as [->|Ns]; [reflexivity|].
    destruct (String.eqb_spec t ValueTypSimpleError) as [->|Ne]; [reflexivity|].
    destruct (String.eqb_spec t ValueTypInteger) as [->|Ni]; [reflexivity|].
    cbn [orb]. cbv iota. cbn [payload typ].
    apply String.eqb_neq in Na, Nb, Ns, Ne, Ni.
    now rewrite Na, Nb, Ns, Ne, Ni.
Qed.

Lemma decode_succeeds_unique {St : Type}
    (o : outcome St (Value * option error)) (v1 v2 : Value) :
  decode_succeeds o v1 -> decode_succeeds o v2 -> v1 = v2.
Proof. intros [st1 ->] [st2 H]. now inversion H. Qed.

(** C1, as stated, fails. SimpleString "OK" is encoded as [+OK\r\n], which
    decodes without error to the zero Value, of another kind, and so does
    a SimpleError; the Null value is encoded as [$-1\r\n], on which the
    decoder panics; and of a BulkString of 4090 bytes, whose encoding does
    not fit in the buffer of the decoder, the last byte comes back as
    NUL. *)
Lemma encoder_kinds_do_not_round_trip :
  (encoder_supports (Value_str ValueTypSimpleString "OK") = true
   /\ decode_succeeds (decode 10 (Marshal (Value_str ValueTypSimpleString "OK")))
        Value_zero
   /\ ~ round_trips 10 (Value_str ValueTypSimpleString "OK")
   /\ ~ round_trips 10 (Value_str ValueTypSimpleError "ERR unknown command"))
  /\ (encoder_supports (Value_typ ValueTypNull) = true
      /\ decode 10 (Marshal (Value_typ ValueTypNull))
         = Panic "makeslice: len out of range"
      /\ ~ round_trips 10 (Value_typ ValueTypNull))
  /\ (encoder_supports long_bulk_string = true
      /\ decode_succeeds (decode 10 (Marshal long_bulk_string))
           long_bulk_string_decoded
      /\ ~ round_trips 10 long_bulk_string).
Proof.
  split; [|split].
  - split; [reflexivity|]. split; [eexists; vm_compute; reflexivity|].
    split; intros (v' & [r Hr] & Ht & _); vm_compute in Hr;
      inversion Hr; subst v'; discriminate.
  - split; [reflexivity|]. split; [vm_compute; reflexivity|].
    intros (v' & [r Hr] & _). vm_compute in Hr. discriminate.
  - assert (E : decode_succeeds (decode 10 (Marshal long_bulk_string))
                  long_bulk_string_decoded)
      by (eexists; vm_compute; reflexivity).
    split; [reflexivity|]. split; [exact E|].
    intros (v' & Hv' & _ & Hp).
    rewrite (decode_succeeds_unique _ _ _ Hv' E) in Hp.
    apply (f_equal (fun v => nth 4089 b(bulk v) LF)) in Hp.
    vm_compute in Hp. discriminate.
Qed.

(** C1, amended. Decoding is [Read] on a file that holds the bytes; the
    first read of the buffered reader brings a file of at most 4096 bytes
    in whole, as one piece. For every Value built from BulkString and Array
    of such values only, whose encoding is not longer than these 4096
    bytes, decoding the bytes produced by [Marshal] yields the kind and the
    payload of the value, with the whole input consumed. For every
    SimpleString and every SimpleError value, decoding the bytes produced
    by [Marshal] yields, without error, the zero Value, which is not of the
    kind of the value: these two kinds never round-trip. *)
Theorem decode_Marshal (v : Value) (fuel : nat) :
  (decodable v = true ->
   (length (Marshal v) <= bufSize)%nat ->
   (length (Marshal v) < fuel)%nat ->
   decode fuel (Marshal v)
   = Done (payload v, None)
       {| pending := []; src := with_chunks (file_Source (Marshal v)) [] |}
   /\ typ (payload v) = typ v
   /\ round_trips fuel v)
  /\ (typ v = ValueTypSimpleString \/ typ v = ValueTypSimpleError ->
      (0 < fuel)%nat ->
      decode_succeeds (decode fuel (Marshal v)) Value_zero
      /\ typ Value_zero <> typ v
      /\ ~ round_trips fuel v).
Proof.
  split.
  - intros Hd Hlen Hfuel.
    assert (E : decode fuel (Marshal v)
                = Done (payload v, None)
                    {| pending := [];
                       src := with_chunks (file_Source (Marshal v)) [] |}).
    { rewrite Read_file; [|intros E; pose proof (Marshal_decodable_pos v Hd) as Hp;
                            rewrite E in Hp; simpl in Hp; lia|exact Hlen].
      rewrite <- (app_nil_r (Marshal v)) at 1.
      now apply Read_buffered. }
    split; [exact E|]. split; [now apply payload_typ|].
    exists (payload v). split; [eexists; exact E|].
    split; [now apply payload_typ|apply payload_idem].
  - intros Ht Hfuel. destruct fuel as [|f]; [lia|].
    assert (E : decode_succeeds (decode (S f) (Marshal v)) Value_zero).
    { destruct v as [t st n bk a]. cbn [typ] in Ht.
      destruct Ht as [-> | ->]; eexists; unfold decode; cbn [Read];
        unfold Marshal; cbn [typ String.eqb Ascii.eqb Bool.eqb];
        unfold ReadByte, NewResp, file_Source;
        cbn [pending src chunks marshalSimpleString marshalError app
             Source_Read take];
        reflexivity. }
    assert (Hk : typ Value_zero <> typ v)
      by (destruct Ht as [-> | ->]; discriminate).
    split; [exact E|]. split; [exact Hk|].
    intros (v' & Hv' & Hty & _).
    rewrite (decode_succeeds_unique _ _ _ Hv' E) in Hty. contradiction.
Qed.

Lemma decode_Marshal_witness :
  (let v := request ["SET"; "foo"; "bar"] in
   decode 40 (Marshal v)
   = Done (payload v, None)
       {| pending := []; src := with_chunks (file_Source (Marshal v)) [] |}
   /\ typ (payload v) = typ v
   /\ round_trips 40 v)
  /\ (let v := Value_str ValueTypSimpleError "ERR unknown command" in
      decode_succeeds (decode 40 (Marshal v)) Value_zero
      /\ typ Value_zero <> typ v
      /\ ~ round_trips 40 v).
Proof.
  split.
  - apply (proj1 (decode_Marshal (request ["SET"; "foo"; "bar"]) 40)).
    + reflexivity.
    + vm_compute. lia.
    + vm_compute. lia.
  - apply (proj2 (decode_Marshal
                    (Value_str ValueTypSimpleError "ERR unknown command") 40)).
    + right. reflexivity.
    + lia.
Defined.

(** * Further properties *)

(** ** The handlers *)

Section HandlerContracts.

Variable range_order : list (string * string) -> list (string * string).

(** X1. Each of SET, GET, HSET, HGET and HGETALL, called with another
    number of arguments than it asks for, replies the SimpleError "ERR
    wrong number of arguments for '<name>' command", with the name it is
    registered under in lower case, and leaves the store as it is; called
    with the right number, its reply is no SimpleError. *)
Theorem handler_arity_check
    (command : string) (handler : Handler) (n : nat)
    (args : list Value) (st : Store) :
  Handlers range_order command = Some handler ->
  arity_of command = Some n ->
  (length args <> n ->
   handler args st = (wrong_args (ToLower_ascii command), st))
  /\ (length args = n ->
      typ (fst (handler args st)) <> ValueTypSimpleError).
Proof.
  intros Hh Ha. by_handler Hh; cbn in Ha; inversion Ha; subst n; clear Ha.
  - split; intros Hl.
    + destruct args as [|a0 [|a1 [|a2 l]]]; try reflexivity.
      now destruct Hl.
    + destruct args as [|a0 [|a1 [|a2 l]]]; try discriminate Hl. discriminate.
  - split; intros Hl.
    + destruct args as [|a0 [|a1 l]]; try reflexivity. now destruct Hl.
    + destruct args as [|a0 [|a1 l]]; try discriminate Hl. cbn.
      destruct (SETs st !! bulk a0); discriminate.
  - split; intros Hl.
    + destruct args as [|a0 [|a1 [|a2 [|a3 l]]]]; try reflexivity.
      now destruct Hl.
    + destruct args as [|a0 [|a1 [|a2 [|a3 l]]]]; try discriminate Hl.
      discriminate.
  - split; intros Hl.
    + destruct args as [|a0 [|a1 [|a2 l]]]; try reflexivity.
      now destruct Hl.
    + destruct args as [|a0 [|a1 [|a2 l]]]; try discriminate Hl. cbn.
      destruct (hash_field st (bulk a0) (bulk a1)); discriminate.
  - split; intros Hl.
    + destruct args as [|a0 [|a1 l]]; try reflexivity. now destruct Hl.
    + destruct args as [|a0 [|a1 l]]; try discriminate Hl. cbn.
      destruct (HSETs st !! bulk a0); discriminate.
Qed.

(** X2. Of the registered handlers only those of SET and HSET ever change
    the store: a handler registered under any other name returns the store
    it was given, whatever its arguments. These two names are the ones the
    connection worker writes to the log. *)
Theorem only_SET_and_HSET_write
    (command : string) (handler : Handler) (args : list Value) (st : Store) :
  Handlers range_order command = Some handler ->
  command <> "SET" -> command <> "HSET" ->
  snd (handler args st) = st.
Proof.
  intros Hh Hs Hhs. by_handler Hh; try contradiction.
  - apply ping_store.
  - apply get_store.
  - apply hget_store.
  - apply hgetall_store.
Qed.

Lemma invoke_SETs_lookup key c st :
  SETs (invoke range_order c st) !! key
  = match SET_value key c with
    | Some v => Some v
    | None => SETs st !! key
    end.
Proof.
  destruct (SET_value key c) as [v|] eqn:E.
  - destruct c as [command args]. unfold SET_value in E. cbn [fst snd] in E.
    destruct (String.eqb_spec command "SET") as [->|]; [|discriminate].
    destruct args as [|a0 [|a1 [|a2 l]]]; try discriminate.
    destruct (String.eqb_spec (bulk a0) key) as [<-|]; [|discriminate].
    inversion E; subst. unfold invoke. cbn. apply lookup_insert_eq.
  - apply invoke_SETs_other. unfold SET_value in E. unfold is_SET_of.
    destruct (String.eqb (fst c) "SET"); [|reflexivity].
    destruct (snd c) as [|a0 [|a1 [|a2 l]]]; try reflexivity.
    cbn. now destruct (String.eqb (bulk a0) key).
Qed.

(** X3. Last write wins: after any sequence of handler invocations, GET of
    a key replies BulkString of the value of the last SET of that key in
    the sequence and, when the sequence has no such SET, what GET replied
    before it. *)
Theorem get_after_run (cs : list (string * list Value)) (st : Store) (q : Value) :
  fst (get [q] (run range_order cs st))
  = match last_write (SET_value (bulk q)) cs with
    | Some v => Value_bulk ValueTypBulkString v
    | None => fst (get [q] st)
    end.
Proof.
  assert (H : forall st,
             SETs (run range_order cs st) !! bulk q
             = match last_write (SET_value (bulk q)) cs with
               | Some v => Some v
               | None => SETs st !! bulk q
               end).
  { clear st. induction cs as [|c cs IH]; intros st; [reflexivity|].
    change (run range_order (c :: cs) st)
      with (run range_order cs (invoke range_order c st)).
    rewrite IH. cbn [last_write].
    destruct (last_write (SET_value (bulk q)) cs); [reflexivity|].
    apply invoke_SETs_lookup. }
  cbn [get]. rewrite H.
  destruct (last_write (SET_value (bulk q)) cs); [reflexivity|].
  now destruct (SETs st !! bulk q).
Qed.

Lemma invoke_hash_field_lookup hash field c st :
  hash_field (invoke range_order c st) hash field
  = match HSET_value hash field c with
    | Some v => Some v
    | None => hash_field st hash field
    end.
Proof.
  destruct (HSET_value hash field c) as [v|] eqn:E.
  - destruct c as [command args]. unfold HSET_value in E. cbn [fst snd] in E.
    destruct (String.eqb_spec command "HSET") as [->|]; [|discriminate].
    destruct args as [|a0 [|a1 [|a2 [|a3 l]]]]; try discriminate.
    destruct (String.eqb_spec (bulk a0) hash) as [<-|]; [|discriminate].
    destruct (String.eqb_spec (bulk a1) field) as [<-|]; [|discriminate].
    inversion E; subst. unfold invoke, hash_field. cbn [fst snd Handlers].
    change (Handlers range_order "HSET") with (Some hset). cbv iota.
    rewrite hset_HSETs, !lookup_insert_eq. reflexivity.
  - apply invoke_hash_field_other. unfold HSET_value in E. unfold is_HSET_of.
    destruct (String.eqb (fst c) "HSET"); [|reflexivity].
    destruct (snd c) as [|a0 [|a1 [|a2 [|a3 l]]]]; try reflexivity.
    cbn. now destruct (String.eqb (bulk a0) hash && String.eqb (bulk a1) field).
Qed.

(** X4. Last write wins for hashes: after any sequence of handler
    invocations, HGET of a field of a hash replies BulkString of the value
    of the last HSET of that field in the sequence and, when the sequence
    has no such HSET, what HGET replied before it. *)
Theorem hget_after_run
    (cs : list (string * list Value)) (st : Store) (qh qf : Value) :
  fst (hget [qh; qf] (run range_order cs st))
  = match last_write (HSET_value (bulk qh) (bulk qf)) cs with
    | Some v => Value_bulk ValueTypBulkString v
    | None => fst (hget [qh; qf] st)
    end.
Proof.
  assert (H : forall st,
             hash_field (run range_order cs st) (bulk qh) (bulk qf)
             = match last_write (HSET_value (bulk qh) (bulk qf)) cs with
               | Some v => Some v
               | None => hash_field st (bulk qh) (bulk qf)
               end).
  { clear st. induction cs as [|c cs IH]; intros st; [reflexivity|].
    change (run range_order (c :: cs) st)
      with (run range_order cs (invoke range_order c st)).
    rewrite IH. cbn [last_write].
    destruct (last_write (HSET_value (bulk qh) (bulk qf)) cs); [reflexivity|].
    apply invoke_hash_field_lookup. }
  cbn [hget]. rewrite H.
  destruct (last_write (HSET_value (bulk qh) (bulk qf)) cs); [reflexivity|].
  now destruct (hash_field st (bulk qh) (bulk qf)).
Qed.

End HandlerContracts.

Lemma handler_arity_check_witness :
  (length [bulk_string "k"] <> 2%nat ->
   set [bulk_string "k"] Store_init
   = (wrong_args (ToLower_ascii "SET"), Store_init))
  /\ (length [bulk_string "k"; bulk_string "v"] = 2%nat ->
      typ (fst (set [bulk_string "k"; bulk_string "v"] Store_init))
      <> ValueTypSimpleError).
Proof.
  split.
  - apply (handler_arity_check (fun l => l) "SET" set 2); reflexivity.
  - apply (handler_arity_check (fun l => l) "SET" set 2); reflexivity.
Defined.

Lemma only_SET_and_HSET_write_witness :
  snd (hgetall (fun l => l) [bulk_string "h"] Store_init) = Store_init.
Proof.
  apply (only_SET_and_HSET_write (fun l => l) "HGETALL").
  - reflexivity.
  - discriminate.
  - discriminate.
Defined.

Lemma fold_append_pair (l : list (string * string)) (acc : list Value) :
  fold_left append_pair l acc = acc ++ flat_map pair_values l.
Proof.
  revert acc. induction l as [|kv l IH]; intros acc; cbn [fold_left flat_map].
  - now rewrite app_nil_r.
  - rewrite IH. unfold append_pair, pair_values, bulk_string.
    now rewrite <- !app_assoc.
Qed.

Section HashReplies.

Variable range_order : list (string * string) -> list (string * string).
Hypothesis range_order_perm : forall l, range_order l ≡ₚ l.

(** X5. For a hash that is present, the reply of HGETALL is the Array of
    the fields of the hash, each followed by its value, as BulkStrings:
    every field with its value once, in some order, and nothing else; so
    the Array has twice as many elements as the hash has fields. *)
Theorem hgetall_fields (a0 : Value) (st : Store) (m : gmap string string) :
  HSETs st !! bulk a0 = Some m ->
  exists l : list (string * string),
    l ≡ₚ map_to_list m
    /\ fst (hgetall range_order [a0] st)
       = Value_array ValueTypArray (flat_map pair_values l)
    /\ (forall k v, (k, v) ∈ l <-> m !! k = Some v)
    /\ length (flat_map pair_values l) = (2 * size m)%nat.
Proof.
  intros Hm. exists (range_order (map_to_list m)).
  split; [apply range_order_perm|].
  split; [cbn [hgetall]; rewrite Hm; cbn [fst]; now rewrite fold_append_pair|].
  split.
  - intros k v. rewrite (range_order_perm (map_to_list m)).
    apply elem_of_map_to_list.
  - rewrite (flat_map_constant_length (c := 2%nat)) by reflexivity.
    rewrite (Permutation_length (range_order_perm _)).
    unfold size, map_size. rewrite length_map_to_list. unfold size, map_size.
    lia.
Qed.

End HashReplies.

Lemma hgetall_fields_witness :
  exists l : list (string * string),
    l ≡ₚ map_to_list ({["f" := "v"]} : gmap string string)
    /\ fst (hgetall (@rev (string * string)) [bulk_string "h"]
              (snd (hset [bulk_string "h"; bulk_string "f"; bulk_string "v"]
                      Store_init)))
       = Value_array ValueTypArray (flat_map pair_values l)
    /\ (forall k v,
           (k, v) ∈ l <-> ({["f" := "v"]} : gmap string string) !! k = Some v)
    /\ length (flat_map pair_values l)
       = (2 * size ({["f" := "v"]} : gmap string string))%nat.
Proof.
  apply (hgetall_fields (@rev (string * string))).
  - intros l. symmetry. apply Permutation_rev.
  - vm_compute. reflexivity.
Defined.

(** ** How invocations compose *)

Lemma Store_eq (a b : Store) : SETs a = SETs b -> HSETs a = HSETs b -> a = b.
Proof. destruct a, b. cbn. now intros -> ->. Qed.

Lemma union_absorb {A : Type} (m a : gmap string A) : m ∪ (m ∪ a) = m ∪ a.
Proof.
  apply map_eq. intros i. rewrite !lookup_union.
  destruct (m !! i), (a !! i); reflexivity.
Qed.

Lemma overlay_init (st : Store) : overlay Store_init st = st.
Proof.
  apply Store_eq; unfold overlay, Store_init; cbn [SETs HSETs].
  - apply map_eq. intros i. rewrite lookup_union, lookup_empty.
    now destruct (SETs st !! i).
  - apply map_eq. intros i. rewrite lookup_union_with, lookup_empty.
    now destruct (HSETs st !! i).
Qed.

Lemma overlay_absorb (top st : Store) : overlay top (overlay top st) = overlay top st.
Proof.
  apply Store_eq; unfold overlay; cbn [SETs HSETs].
  - apply union_absorb.
  - apply map_eq. intros i. rewrite !lookup_union_with.
    destruct (HSETs top !! i) as [m|], (HSETs st !! i) as [a|]; cbn;
      try reflexivity.
    + now rewrite union_absorb.
    + f_equal. apply map_eq. intros j. rewrite lookup_union.
      now destruct (m !! j).
Qed.

Section Composition.

Variable range_order : list (string * string) -> list (string * string).

Lemma hset_overlay (args : list Value) (top base : Store) :
  snd (hset args (overlay top base)) = overlay (snd (hset args top)) base.
Proof.
  destruct args as [|a0 [|a1 [|a2 [|a3 l]]]]; try reflexivity.
  apply Store_eq; [reflexivity|].
  rewrite hset_HSETs. unfold overlay. cbn [HSETs]. rewrite hset_HSETs.
  apply map_eq. intros i. destruct (decide (bulk a0 = i)) as [<-|Ni].
  - rewrite lookup_insert_eq, !lookup_union_with, lookup_insert_eq.
    destruct (HSETs top !! bulk a0) as [m|], (HSETs base !! bulk a0) as [a|];
      cbn; f_equal.
    + apply insert_union_l.
    + rewrite <- insert_union_l. f_equal. apply map_eq. intros j.
      rewrite lookup_union, lookup_empty. now destruct (a !! j).
  - rewrite lookup_insert_ne, !lookup_union_with, lookup_insert_ne by exact Ni.
    reflexivity.
Qed.

Lemma invoke_overlay (c : string * list Value) (top base : Store) :
  invoke range_order c (overlay top base)
  = overlay (invoke range_order c top) base.
Proof.
  destruct c as [command args]. unfold invoke. cbn [fst snd].
  destruct (Handlers range_order command) as [handler|] eqn:Hh; [|reflexivity].
  by_handler Hh.
  - now rewrite !ping_store.
  - destruct args as [|a0 [|a1 [|a2 l]]]; try reflexivity.
    apply Store_eq; [|reflexivity]. cbn. apply insert_union_l.
  - now rewrite !get_store.
  - apply hset_overlay.
  - now rewrite !hget_store.
  - now rewrite !hgetall_store.
Qed.

Lemma run_over_overlay (cs : list (string * list Value)) :
  forall top base : Store,
    run range_order cs (overlay top base)
    = overlay (run range_order cs top) base.
Proof.
  induction cs as [|c cs IH]; intros top base; [reflexivity|].
  change (run range_order (c :: cs) ?s)
    with (run range_order cs (invoke range_order c s)).
  now rewrite invoke_overlay, IH.
Qed.

(** X6. What a sequence of handler invocations does to a store does not
    depend on the store: the result is what the sequence builds from the
    empty store, laid over the store it started from. *)
Theorem run_overlay (cs : list (string * list Value)) (st : Store) :
  run range_order cs st = overlay (run range_order cs Store_init) st.
Proof.
  rewrite <- (overlay_init st) at 1. apply run_over_overlay.
Qed.

(** X7. Replaying a sequence of handler invocations is idempotent: run a
    second time on its own result, the sequence changes nothing. *)
Theorem run_idempotent (cs : list (string * list Value)) (st : Store) :
  run range_order cs (run range_order cs st) = run range_order cs st.
Proof.
  assert (R : forall st0,
             run range_order cs st0
             = overlay (run range_order cs Store_init) st0).
  { intros st0. rewrite <- (overlay_init st0) at 1. apply run_over_overlay. }
  rewrite (R (run range_order cs st)), (R st). apply overlay_absorb.
Qed.

Lemma handler_reply_kind
    (command : string) (handler : Handler) (args : list Value) (st : Store) :
  Handlers range_order command = Some handler ->
  encoder_supports (fst (handler args st)) = true.
Proof.
  intros Hh. by_handler Hh.
  - destruct args; reflexivity.
  - destruct args as [|a0 [|a1 [|a2 l]]]; reflexivity.
  - destruct args as [|a0 [|a1 l]]; try reflexivity. cbn.
    destruct (SETs st !! bulk a0); reflexivity.
  - destruct args as [|a0 [|a1 [|a2 [|a3 l]]]]; reflexivity.
  - destruct args as [|a0 [|a1 [|a2 l]]]; try reflexivity. cbn.
    destruct (hash_field st (bulk a0) (bulk a1)); reflexivity.
  - destruct args as [|a0 [|a1 l]]; try reflexivity. cbn [hgetall].
    destruct (HSETs st !! bulk a0) as [m|]; [|reflexivity].
    cbn [fst]. rewrite fold_append_pair. cbn [app].
    change (forallb encoder_supports
              (flat_map pair_values (range_order (map_to_list m))) = true).
    induction (range_order (map_to_list m)) as [|kv l IH]; [reflexivity|].
    cbn [flat_map pair_values app forallb]. rewrite IH. reflexivity.
Qed.

Lemma encoder_supports_Marshal (v : Value) :
  encoder_supports v = true -> Marshal v <> [].
Proof.
  destruct v as [t s n bk a]. intros He Hm.
  cbn [encoder_supports typ array] in He. cbn [Marshal typ] in Hm.
  destruct (String.eqb t ValueTypArray).
  - unfold marshalArray in Hm. rewrite fold_left_app_concat in Hm.
    discriminate.
  - destruct (String.eqb t ValueTypBulkString); [discriminate|].
    destruct (String.eqb t ValueTypSimpleString); [discriminate|].
    destruct (String.eqb t ValueTypNull); [discriminate|].
    destruct (String.eqb t ValueTypSimpleError); discriminate.
Qed.


End Composition.


(** ** Lines and integers *)

Lemma Source_Read_nonempty (cap : nat) (cs : list bytes) (d : bytes) (cs' : list bytes) :
  Source_Read cap cs = Some (d, cs') -> (0 < cap)%nat -> d <> [].
Proof.
  induction cs as [|c cs IH]; [discriminate|].
  destruct c as [|x c]; [exact IH|].
  cbn [Source_Read]. intros [= <- <-] Hc.
  destruct cap; [lia|discriminate].
Qed.

Lemma Source_Read_None (cap : nat) (cs : list bytes) :
  Source_Read cap cs = None -> concat cs = [].
Proof.
  induction cs as [|c cs IH]; [reflexivity|].
  destruct c as [|x c]; [exact IH|discriminate].
Qed.

(** [ReadByte] delivers the remaining bytes one by one, whatever the
    pieces they arrive in, and then the error of the underlying reader. *)
Lemma ReadByte_remaining (r : Reader) :
  match ReadByte r with
  | ((c, None), r1) =>
      remaining r = c :: remaining r1 /\ final (src r1) = final (src r)
  | ((_, Some e), r1) =>
      remaining r = [] /\ e = final (src r) /\ r1 = r
  end.
Proof.
  unfold ReadByte, remaining. destruct (pending r) as [|c p] eqn:Ep.
  - destruct (Source_Read bufSize (chunks (src r))) as [[d cs]|] eqn:Es.
    + pose proof (Source_Read_nonempty _ _ _ _ Es ltac:(unfold bufSize; lia)).
      apply Source_Read_concat in Es.
      destruct d as [|c p]; [contradiction|].
      cbn [pending src chunks with_chunks final app]. now rewrite Es.
    + apply Source_Read_None in Es. now rewrite Es.
  - cbn [pending src app]. now split.
Qed.

Lemma readLine_loop_remaining (line : bytes) :
  forall (acc : bytes) (n : Z) (fuel : nat) (x : ascii) (rest : bytes) (r : Reader),
    remaining r = line ++ CR :: x :: rest ->
    Forall (fun c => c <> CR) acc ->
    Forall (fun c => c <> CR) line ->
    (length line + 2 <= fuel)%nat ->
    exists r1,
      readLine_loop fuel acc n r
      = Done (acc ++ line, n + Z.of_nat (length line) + 2, None) r1
      /\ remaining r1 = rest /\ final (src r1) = final (src r).
Proof.
  induction line as [|c line IH]; intros acc n fuel x rest r Hr Hacc Hline Hfuel.
  - destruct fuel as [|[|f]]; simpl in Hfuel; try lia.
    cbn [readLine_loop]. pose proof (ReadByte_remaining r) as H1.
    destruct (ReadByte r) as [[c1 [e|]] r1].
    { destruct H1 as [H1 _]. rewrite H1 in Hr. discriminate. }
    destruct H1 as [H1 F1]. rewrite Hr in H1. cbn [app] in H1.
    inversion H1 as [[Hc H1']]. subst c1.
    rewrite (readLine_test_false acc CR Hacc).
    pose proof (ReadByte_remaining r1) as H2.
    destruct (ReadByte r1) as [[c2 [e|]] r2].
    { destruct H2 as [H2 _]. rewrite H2 in H1'. discriminate. }
    destruct H2 as [H2 F2]. rewrite <- H1' in H2.
    inversion H2 as [[Hc2 H2']]. subst c2.
    destruct (readLine_test_true acc x) as [-> ->].
    exists r2. rewrite app_nil_r. split; [|split].
    + do 2 f_equal. f_equal. simpl. lia.
    + now symmetry.
    + congruence.
  - destruct fuel as [|f]; simpl in Hfuel; try lia.
    inversion Hline as [|? ? Hc Hl]; subst.
    cbn [readLine_loop]. pose proof (ReadByte_remaining r) as H1.
    destruct (ReadByte r) as [[c1 [e|]] r1].
    { destruct H1 as [H1 _]. rewrite H1 in Hr. discriminate. }
    destruct H1 as [H1 F1]. rewrite Hr in H1. cbn [app] in H1.
    inversion H1 as [[Hc1 H1']]. subst c1.
    rewrite (readLine_test_false acc c Hacc).
    destruct (IH (acc ++ [c]) (n + 1) f x rest r1) as (r2 & E & R2 & F2);
      [now symmetry|apply Forall_app; split; [exact Hacc|now constructor]
      |exact Hl|lia|].
    exists r2. rewrite E, <- app_assoc. cbn [app]. split; [|split].
    + do 2 f_equal. f_equal. cbn [length]. lia.
    + exact R2.
    + congruence.
Qed.

(** X9. [readLine] returns the bytes before the first CR and consumes that
    CR together with the byte after it, whatever that byte is and in
    whatever pieces the bytes arrive; the count it returns includes the two
    bytes of the terminator. *)
Theorem readLine_terminator
    (line : bytes) (x : ascii) (rest : bytes) (fuel : nat) (r : Reader) :
  remaining r = line ++ CR :: x :: rest ->
  Forall (fun c => c <> CR) line ->
  (length line + 2 <= fuel)%nat ->
  exists r1,
    readLine fuel r = Done (line, Z.of_nat (length line) + 2, None) r1
    /\ remaining r1 = rest.
Proof.
  intros Hr Hline Hfuel.
  destruct (readLine_loop_remaining line [] 0 fuel x rest r Hr
              (List.Forall_nil _) Hline Hfuel) as (r1 & E & R & _).
  exists r1. split; [exact E|exact R].
Qed.

Lemma readLine_loop_eof (line : bytes) :
  forall (acc : bytes) (n : Z) (fuel : nat) (r : Reader),
    remaining r = line \/ remaining r = line ++ [CR] ->
    Forall (fun c => c <> CR) acc ->
    Forall (fun c => c <> CR) line ->
    (length line + 2 <= fuel)%nat ->
    exists r1,
      readLine_loop fuel acc n r = Done ([], 0, Some (final (src r))) r1
      /\ remaining r1 = [].
Proof.
  induction line as [|c line IH]; intros acc n fuel r Hr Hacc Hline Hfuel.
  - destruct fuel as [|[|f]]; simpl in Hfuel; try lia.
    cbn [readLine_loop]. pose proof (ReadByte_remaining r) as H1.
    destruct (ReadByte r) as [[c1 [e|]] r1].
    { destruct H1 as (H1 & -> & ->). exists r. now split. }
    destruct H1 as [H1 F1]. destruct Hr as [Hr|Hr]; rewrite Hr in H1;
      [discriminate|].
    cbn [app] in H1. inversion H1 as [[Hc H1']]. subst c1.
    rewrite (readLine_test_false acc CR Hacc).
    pose proof (ReadByte_remaining r1) as H2.
    destruct (ReadByte r1) as [[c2 [e|]] r2].
    + destruct H2 as (H2 & -> & ->). exists r1. split; [congruence|exact H2].
    + destruct H2 as [H2 _]. rewrite <- H1' in H2. discriminate.
  - destruct fuel as [|f]; simpl in Hfuel; try lia.
    inversion Hline as [|? ? Hc Hl]; subst.
    cbn [readLine_loop]. pose proof (ReadByte_remaining r) as H1.
    destruct (ReadByte r) as [[c1 [e|]] r1].
    { destruct H1 as (H1 & _). destruct Hr as [Hr|Hr]; rewrite Hr in H1;
        discriminate. }
    destruct H1 as [H1 F1].
    assert (Hc1 : c1 = c /\ (remaining r1 = line \/ remaining r1 = line ++ [CR])).
    { destruct Hr as [Hr|Hr]; rewrite Hr in H1; cbn [app] in H1;
        inversion H1; auto. }
    destruct Hc1 as [-> Hr1].
    rewrite (readLine_test_false acc c Hacc).
    destruct (IH (acc ++ [c]) (n + 1) f r1 Hr1) as (r2 & E & R2);
      [apply Forall_app; split; [exact Hacc|now constructor]|exact Hl|lia|].
    exists r2. rewrite E, F1. now split.
Qed.

(** X10. When the input ends before a CR has been followed by a byte (it
    holds no CR, or its last byte is its only CR), [readLine] returns the
    error of the underlying reader, [io.EOF] at the end of a file or of a
    closed connection, with a nil line and the count 0, and the input is
    used up. *)
Theorem readLine_end_of_input (line : bytes) (fuel : nat) (r : Reader) :
  remaining r = line \/ remaining r = line ++ [CR] ->
  Forall (fun c => c <> CR) line ->
  (length line + 2 <= fuel)%nat ->
  exists r1,
    readLine fuel r = Done ([], 0, Some (final (src r))) r1
    /\ remaining r1 = [].
Proof.
  intros Hr Hline Hfuel.
  apply (readLine_loop_eof line [] 0 fuel r Hr (List.Forall_nil _) Hline Hfuel).
Qed.

Lemma ParseInt_Itoa_negative (n : Z) :
  - 2 ^ 63 <= n < 0 -> ParseInt (Itoa n) = (n, None).
Proof.
  intros Hn. unfold Itoa. destruct (Z.ltb_spec n 0) as [_|]; [|lia].
  unfold ParseInt. rewrite list_ascii_of_string_of_list_ascii.
  change (Ascii.eqb "-" "-") with true. change (Ascii.eqb "-" "+") with false.
  cbn [orb]. cbv iota.
  assert (Hp : ParseUint_loop (format_digits 20 (- n) []) 0 = (- n, None)).
  { rewrite ParseUint_loop_format_digits; [reflexivity| |].
    - split; [lia|]. apply Z.le_lt_trans with (2 ^ 63); [lia|reflexivity].
    - unfold maxUint64. lia. }
  destruct (format_digits_cons 20 (- n) []) as (c & l & E). rewrite E in *.
  unfold ParseUint. rewrite Hp. cbn [negb andb].
  destruct (Z.ltb_spec (2 ^ 63) (- n)); [lia|]. f_equal. lia.
Qed.

Lemma ParseInt_Itoa_int64 (n : Z) :
  - 2 ^ 63 <= n < 2 ^ 63 -> ParseInt (Itoa n) = (n, None).
Proof.
  intros Hn. destruct (Z.lt_ge_cases n 0).
  - apply ParseInt_Itoa_negative. lia.
  - apply ParseInt_Itoa. lia.
Qed.

Lemma Itoa_no_CR (n : Z) : Forall (fun c => c <> CR) b(Itoa n).
Proof.
  destruct (Z.lt_ge_cases n 0) as [Hneg|]; [|now apply Itoa_digits].
  unfold Itoa. destruct (Z.ltb_spec n 0) as [_|]; [|lia].
  rewrite list_ascii_of_string_of_list_ascii.
  constructor; [discriminate|].
  eapply List.Forall_impl; [apply is_digit_not_CR|].
  apply format_digits_digits. constructor.
Qed.

Lemma readInteger_decimal
    (n : Z) (x : ascii) (rest : bytes) (fuel : nat) (r : Reader) :
  - 2 ^ 63 <= n < 2 ^ 63 ->
  remaining r = b(Itoa n) ++ CR :: x :: rest ->
  (length b(Itoa n) + 2 <= fuel)%nat ->
  exists r1,
    readInteger fuel r
    = Done (n, Z.of_nat (length b(Itoa n)) + 2, None) r1
    /\ remaining r1 = rest.
Proof.
  intros Hn Hr Hfuel. unfold readInteger, readLine.
  destruct (readLine_loop_remaining b(Itoa n) [] 0 fuel x rest r Hr
              (List.Forall_nil _) (Itoa_no_CR n) Hfuel) as (r1 & E & R & _).
  exists r1. rewrite E. cbn [bind app].
  rewrite string_of_list_ascii_of_string, ParseInt_Itoa_int64 by exact Hn.
  now split.
Qed.

(** X11. [readInteger] reads back every 64-bit integer from its decimal
    form as [strconv.Itoa] prints it, followed by a CR and one more byte,
    and leaves the input after that byte; the count it returns is the
    number of bytes of the line with its terminator. *)
Theorem readInteger_Itoa
    (n : Z) (x : ascii) (rest : bytes) (fuel : nat) (r : Reader) :
  - 2 ^ 63 <= n < 2 ^ 63 ->
  remaining r = b(Itoa n) ++ CR :: x :: rest ->
  (length b(Itoa n) + 2 <= fuel)%nat ->
  exists r1,
    readInteger fuel r
    = Done (n, Z.of_nat (length b(Itoa n)) + 2, None) r1
    /\ remaining r1 = rest
    /\ (avail r1 + length b(Itoa n) + 2 = avail r)%nat.
Proof.
  intros Hn Hr Hfuel.
  destruct (readInteger_decimal n x rest fuel r Hn Hr Hfuel) as (r1 & E & R).
  exists r1. split; [exact E|]. split; [exact R|].
  assert (Ha : forall r0, avail r0 = length (remaining r0)).
  { intros r0. unfold avail, remaining. now rewrite length_app. }
  rewrite !Ha, Hr, R, length_app. cbn [length]. lia.
Qed.

Lemma readLine_terminator_witness :
  exists r1,
    readLine 5
      (NewResp {| chunks := [b("ab"); [CR]; b("Zcd")]; final := io_EOF |})
    = Done (b("ab"), Z.of_nat (length b("ab")) + 2, None) r1
    /\ remaining r1 = b("cd").
Proof.
  apply (readLine_terminator b("ab") "Z"%char b("cd") 5).
  - reflexivity.
  - repeat constructor; discriminate.
  - simpl. lia.
Defined.

Lemma readLine_end_of_input_witness :
  exists r1,
    readLine 5 (NewResp {| chunks := [b("ab"); [CR]]; final := io_EOF |})
    = Done ([], 0, Some io_EOF) r1
    /\ remaining r1 = [].
Proof.
  apply (readLine_end_of_input b("ab") 5
           (NewResp {| chunks := [b("ab"); [CR]]; final := io_EOF |})).
  - right. reflexivity.
  - repeat constructor; discriminate.
  - simpl. lia.
Defined.

Lemma readInteger_Itoa_witness :
  exists r1,
    readInteger 5 (NewResp (file_Source (crlf "-12" ++ b("x"))))
    = Done (-12, Z.of_nat (length b(Itoa (-12))) + 2, None) r1
    /\ remaining r1 = b("x")
    /\ (avail r1 + length b(Itoa (-12)) + 2
        = avail (NewResp (file_Source (crlf "-12" ++ b("x")))))%nat.
Proof.
  apply (readInteger_Itoa (-12) LF b("x") 5).
  - lia.
  - reflexivity.
  - vm_compute. lia.
Defined.

Lemma is_digit_val (c : ascii) : is_digit c = true -> 0 <= digit_val c <= 9.
Proof.
  unfold is_digit, digit_val. intros H. apply andb_prop in H as [H1 H2].
  apply N.leb_le in H1, H2. lia.
Qed.

Lemma ParseUint_loop_ok (l : bytes) :
  forall n u, 0 <= n -> ParseUint_loop l n = (u, None) ->
              forallb is_digit l = true /\ n <= u.
Proof.
  induction l as [|c l IH]; intros n u Hn H; cbn [ParseUint_loop forallb] in *.
  - inversion H. split; [reflexivity|lia].
  - destruct (is_digit c) eqn:Hc; [|discriminate].
    destruct (maxUint64 / 10 + 1 <=? n); [discriminate|].
    destruct (maxUint64 <? n * 10 + digit_val c); [discriminate|].
    pose proof (is_digit_val c Hc) as Hv.
    assert (Hn1 : 0 <= n * 10 + digit_val c) by lia.
    destruct (IH _ _ Hn1 H) as [Hl Hu]. split; [exact Hl|lia].
Qed.

Lemma ParseUint_loop_err (l : bytes) :
  forall n u e, ParseUint_loop l n = (u, Some e) ->
                e = ErrSyntax \/ (e = ErrRange /\ u = maxUint64).
Proof.
  induction l as [|c l IH]; intros n u e H; cbn [ParseUint_loop] in H.
  - discriminate.
  - destruct (is_digit c); [|inversion H; now left].
    destruct (maxUint64 / 10 + 1 <=? n); [inversion H; now right|].
    destruct (maxUint64 <? n * 10 + digit_val c); [inversion H; now right|].
    now apply (IH _ _ _ H).
Qed.

Lemma ParseInt_ok (s : string) (x : Z) :
  ParseInt s = (x, None) ->
  is_decimal b(s) = true /\ - 2 ^ 63 <= x < 2 ^ 63.
Proof.
  unfold ParseInt, is_decimal. destruct b(s) as [|c rest]; [discriminate|].
  destruct (Ascii.eqb c "+" || Ascii.eqb c "-") eqn:Hsign.
  - unfold ParseUint. destruct rest as [|d rest]; [discriminate|].
    destruct (ParseUint_loop (d :: rest) 0) as [un [e|]] eqn:Hp.
    + destruct (ParseUint_loop_err _ _ _ _ Hp) as [->|[-> ->]];
        [discriminate|].
      destruct (Ascii.eqb c "-"); cbn [negb andb]; discriminate.
    + destruct (ParseUint_loop_ok _ _ _ (Z.le_refl 0) Hp) as [Hd Hu].
      destruct (Ascii.eqb c "-"); cbn [negb andb].
      * destruct (Z.ltb_spec (2 ^ 63) un); [discriminate|].
        intros [= <-]. split; [exact Hd|lia].
      * destruct (Z.leb_spec (2 ^ 63) un); [discriminate|].
        intros [= <-]. split; [exact Hd|lia].
  - apply orb_false_elim in Hsign as [_ Hneg]. rewrite Hneg.
    unfold ParseUint.
    destruct (ParseUint_loop (c :: rest) 0) as [un [e|]] eqn:Hp.
    + destruct (ParseUint_loop_err _ _ _ _ Hp) as [->|[-> ->]];
        discriminate.
    + destruct (ParseUint_loop_ok _ _ _ (Z.le_refl 0) Hp) as [Hd Hu].
      cbn [negb andb]. destruct (Z.leb_spec (2 ^ 63) un); [discriminate|].
      intros [= <-]. split; [exact Hd|lia].
Qed.

(** X12. [readInteger] returns without error only when the line it has
    read is an optional sign followed by at least one decimal digit, and
    then its result lies in the range of a 64-bit integer; on every error
    the integer it returns is 0. *)
Theorem readInteger_result
    (fuel : nat) (r r1 : Reader) (x n : Z) (err : option error) :
  readInteger fuel r = Done (x, n, err) r1 ->
  match err with
  | None =>
      exists line,
        readLine fuel r = Done (line, n, None) r1
        /\ is_decimal line = true /\ - 2 ^ 63 <= x < 2 ^ 63
  | Some _ => x = 0
  end.
Proof.
  unfold readInteger.
  destruct (readLine fuel r) as [[[line m] [e|]] r2| |]; cbn [bind];
    try discriminate.
  - intros [= <- <- <- <-]. reflexivity.
  - destruct (ParseInt s(line)) as [i64 [e|]] eqn:Hp.
    + intros [= <- <- <- <-]. reflexivity.
    + intros [= <- <- <- <-]. exists line. split; [reflexivity|].
      apply ParseInt_ok in Hp.
      now rewrite list_ascii_of_string_of_list_ascii in Hp.
Qed.

Lemma readInteger_result_witness :
  exists line,
    readLine 5 (NewResp (file_Source (crlf "+42")))
    = Done (line, 5, None)
        {| pending := []; src := with_chunks (file_Source (crlf "+42")) [] |}
    /\ is_decimal line = true /\ - 2 ^ 63 <= 42 < 2 ^ 63.
Proof.
  apply (readInteger_result 5 (NewResp (file_Source (crlf "+42"))) _ 42 5 None).
  vm_compute. reflexivity.
Defined.

(** ** What the decoder returns *)

Lemma decoder_kind_payload_Array (a : list Value) :
  Forall (fun x => decoder_kind x = true /\ payload x = x) a ->
  decoder_kind (Value_array ValueTypArray a) = true
  /\ payload (Value_array ValueTypArray a) = Value_array ValueTypArray a.
Proof.
  intros Ha. unfold Value_array. cbn [decoder_kind payload typ array].
  change (String.eqb ValueTypArray ValueTypArray) with true. cbv iota. split.
  - apply forallb_forall. intros x Hx.
    rewrite List.Forall_forall in Ha. now apply Ha.
  - unfold Value_array. f_equal.
    induction Ha as [|x a [_ Hx] _ IH]; [reflexivity|].
    cbn [List.map]. now rewrite Hx, IH.
Qed.

Lemma readArray_loop_shape
    (Rd : Reader -> outcome Reader (Value * option error)) :
  (forall r r1 v, Rd r = Done (v, None) r1 ->
                  decoder_kind v = true /\ payload v = v) ->
  forall (k : nat) (i len : Z) (a0 : list Value) (r r1 : Reader)
         (v : Value) (e : option error),
    Forall (fun x => decoder_kind x = true /\ payload x = x) a0 ->
    readArray_loop Rd k i len (Value_array ValueTypArray a0) r = Done (v, e) r1 ->
    exists a, v = Value_array ValueTypArray a
              /\ Forall (fun x => decoder_kind x = true /\ payload x = x) a
              /\ (e = None -> i <= len ->
                  Z.of_nat (length a) = Z.of_nat (length a0) + (len - i)).
Proof.
  intros HRd. induction k as [|k IH]; intros i len a0 r r1 v e Ha0 H;
    cbn [readArray_loop] in H.
  - destruct (Z.ltb_spec i len); [discriminate|]. inversion H; subst.
    exists a0. split; [reflexivity|]. split; [exact Ha0|]. intros _ Hi. lia.
  - destruct (Z.ltb_spec i len).
    + destruct (Rd r) as [[val [e1|]] r2| |] eqn:ERd; cbn [bind] in H;
        try discriminate.
      * inversion H; subst. exists a0. split; [reflexivity|].
        split; [exact Ha0|]. discriminate.
      * unfold set_array, Value_array in H. cbn [typ str num bulk array] in H.
        destruct (IH (i + 1) len (a0 ++ [val]) r2 r1 v e) as (a & -> & Ha & Hl).
        { apply Forall_app. split; [exact Ha0|]. constructor; [|constructor].
          now apply (HRd r r2 val). }
        { exact H. }
        exists a. split; [reflexivity|]. split; [exact Ha|].
        intros He Hi. rewrite Hl by (try exact He; lia).
        rewrite length_app. cbn [length]. lia.
    + inversion H; subst. exists a0. split; [reflexivity|].
      split; [exact Ha0|]. intros _ Hi. lia.
Qed.

(** X13. Every value that [Read] returns without error is the zero Value,
    a BulkString or an Array of such values, with zero in the fields that
    are not the payload of its kind: the decoder never builds a
    SimpleString, a SimpleError, an Integer or a Null value. *)
Theorem Read_kinds (fuel : nat) :
  forall (r r1 : Reader) (v : Value),
    Read fuel r = Done (v, None) r1 ->
    decoder_kind v = true /\ payload v = v.
Proof.
  induction fuel as [|f IH]; intros r r1 v H; [discriminate|].
  cbn [Read] in H. destruct (ReadByte r) as [[c [e|]] r2]; [discriminate|].
  destruct (Ascii.eqb c FB_ARRAY).
  - unfold readArray in H.
    destruct (readInteger f r2) as [[[len m] [e|]] r3| |]; cbn [bind] in H;
      try discriminate.
    destruct (makeslice_panics sizeof_Value 0 len); [discriminate|].
    change (set_array (Value_typ ValueTypArray) [])
      with (Value_array ValueTypArray []) in H.
    destruct (readArray_loop_shape (Read f) IH f 0 len [] r3 r1 v None
                (List.Forall_nil _) H) as (a & -> & Ha & _).
    now apply decoder_kind_payload_Array.
  - destruct (Ascii.eqb c FB_BULK_STRING).
    + unfold readBulkString in H.
      destruct (readInteger f r2) as [[[len m] [e|]] r3| |]; cbn [bind] in H;
        try discriminate.
      destruct (makeslice_panics 1 len len); [discriminate|].
      destruct (bufio_Read (Z.to_nat len) r3) as [[data [e|]] r4];
        [discriminate|].
      destruct (readLine f r4) as [[[l m'] e] r5| |]; cbn [bind] in H;
        try discriminate.
      inversion H; subst. split; reflexivity.
    + inversion H; subst. split; reflexivity.
Qed.

Lemma Source_Read_length (cap : nat) (cs : list bytes) (d : bytes) (cs' : list bytes) :
  Source_Read cap cs = Some (d, cs') -> (length d <= cap)%nat.
Proof.
  induction cs as [|c cs IH]; [discriminate|].
  destruct c as [|x c]; [exact IH|].
  cbn [Source_Read]. intros [= <- <-]. apply firstn_le_length.
Qed.

(** [bufio.Reader.Read] returns a prefix of the remaining bytes, of at
    most the length asked for. *)
Lemma bufio_Read_prefix (n : nat) (r r1 : Reader) (d : bytes) :
  bufio_Read n r = ((d, None), r1) ->
  remaining r = d ++ remaining r1 /\ (length d <= n)%nat.
Proof.
  unfold bufio_Read, remaining. destruct n as [|n].
  { intros [= <- <-]. split; [reflexivity|simpl; lia]. }
  destruct (pending r) as [|c p] eqn:Ep.
  - destruct (bufSize <=? S n)%nat eqn:Eb.
    + destruct (Source_Read (S n) (chunks (src r))) as [[d' cs]|] eqn:Es;
        [|discriminate].
      intros [= <- <-]. cbn [pending src chunks with_chunks app].
      split; [exact (Source_Read_concat _ _ _ _ Es)
             |exact (Source_Read_length _ _ _ _ Es)].
    + destruct (Source_Read bufSize (chunks (src r))) as [[d' cs]|] eqn:Es;
        [|discriminate].
      intros [= <- <-]. cbn [pending src chunks with_chunks app].
      apply Source_Read_concat in Es. rewrite Es. split.
      * rewrite <- (take_drop (S n) d') at 1. now rewrite <- app_assoc.
      * apply firstn_le_length.
  - intros [= <- <-]. cbn [pending src]. split.
    + rewrite <- (take_drop (S n) (c :: p)) at 1. now rewrite <- app_assoc.
    + pose proof (firstn_le_length n p). cbn [length]. lia.
Qed.

Lemma length_string_of_list_ascii (l : bytes) : String.length s(l) = length l.
Proof. induction l as [|c l IH]; simpl; congruence. Qed.

Lemma Read_first_byte (f : nat) (r : Reader) (c : ascii) (p : bytes) :
  remaining r = c :: p ->
  exists r1, ReadByte r = ((c, None), r1) /\ remaining r1 = p.
Proof.
  intros Hr. pose proof (ReadByte_remaining r) as H.
  destruct (ReadByte r) as [[c1 [e|]] r1].
  - destruct H as [H _]. rewrite H in Hr. discriminate.
  - destruct H as [H _]. rewrite Hr in H. inversion H; subst.
    now exists r1.
Qed.

Lemma readArray_loop_length
    (Rd : Reader -> outcome Reader (Value * option error)) :
  forall (k : nat) (i len : Z) (v0 : Value) (r r1 : Reader) (v : Value),
    readArray_loop Rd k i len v0 r = Done (v, None) r1 ->
    i <= len ->
    typ v = typ v0
    /\ Z.of_nat (length (array v)) = Z.of_nat (length (array v0)) + (len - i).
Proof.
  induction k as [|k IH]; intros i len v0 r r1 v H Hi;
    cbn [readArray_loop] in H.
  - destruct (Z.ltb_spec i len); [discriminate|]. inversion H; subst.
    split; [reflexivity|lia].
  - destruct (Z.ltb_spec i len).
    + destruct (Rd r) as [[val [e1|]] r2| |]; cbn [bind] in H;
        try discriminate.
      destruct (IH _ _ _ _ _ _ H ltac:(lia)) as [Ht Hl].
      unfold set_array in Ht, Hl. cbn [typ array] in Ht, Hl.
      split; [exact Ht|]. rewrite Hl, length_app. cbn [length]. lia.
    + inversion H; subst. split; [reflexivity|lia].
Qed.

(** X14. An Array frame that decodes without error gives an Array of
    exactly as many elements as its length line declares. *)
Theorem Read_array_declared_length
    (n : Z) (x : ascii) (rest : bytes) (fuel : nat) (r r1 : Reader) (v : Value) :
  0 <= n < 2 ^ 63 ->
  remaining r = FB_ARRAY :: b(Itoa n) ++ CR :: x :: rest ->
  (length b(Itoa n) + 3 <= fuel)%nat ->
  Read fuel r = Done (v, None) r1 ->
  typ v = ValueTypArray /\ Z.of_nat (length (array v)) = n.
Proof.
  intros Hn Hr Hfuel H. destruct fuel as [|f]; [discriminate|].
  cbn [Read] in H. destruct (Read_first_byte f r _ _ Hr) as (r2 & Eb & Hr2).
  rewrite Eb in H.
  change (Ascii.eqb FB_ARRAY FB_ARRAY) with true in H. cbv iota in H.
  unfold readArray in H.
  destruct (readInteger_decimal n x rest f r2) as (r3 & E & _);
    [lia|exact Hr2|lia|].
  rewrite E in H. cbn [bind] in H.
  destruct (makeslice_panics sizeof_Value 0 n); [discriminate|].
  destruct (readArray_loop_length (Read f) f 0 n _ r3 r1 v H ltac:(lia))
    as [Ht Hl].
  split; [exact Ht|]. rewrite Hl. simpl. lia.
Qed.

(** X15. A BulkString frame that decodes without error gives a payload of
    exactly the declared length: the bytes that one read of the buffered
    reader delivered, a prefix of the bytes that follow the length line,
    filled up with NUL bytes when that read was short. *)
Theorem Read_bulk_declared_length
    (n : Z) (x : ascii) (rest : bytes) (fuel : nat) (r r1 : Reader) (v : Value) :
  0 <= n < 2 ^ 63 ->
  remaining r = FB_BULK_STRING :: b(Itoa n) ++ CR :: x :: rest ->
  (length b(Itoa n) + 3 <= fuel)%nat ->
  Read fuel r = Done (v, None) r1 ->
  typ v = ValueTypBulkString
  /\ Z.of_nat (String.length (bulk v)) = n
  /\ exists data rest',
       rest = data ++ rest'
       /\ (length data <= Z.to_nat n)%nat
       /\ bulk v = s(data ++ repeat NUL (Z.to_nat n - length data)).
Proof.
  intros Hn Hr Hfuel H. destruct fuel as [|f]; [discriminate|].
  cbn [Read] in H. destruct (Read_first_byte f r _ _ Hr) as (r2 & Eb & Hr2).
  rewrite Eb in H.
  change (Ascii.eqb FB_BULK_STRING FB_ARRAY) with false in H.
  change (Ascii.eqb FB_BULK_STRING FB_BULK_STRING) with true in H.
  cbv iota in H. unfold readBulkString in H.
  destruct (readInteger_decimal n x rest f r2) as (r3 & E & Hr3);
    [lia|exact Hr2|lia|].
  rewrite E in H. cbn [bind] in H.
  destruct (makeslice_panics 1 n n); [discriminate|].
  destruct (bufio_Read (Z.to_nat n) r3) as [[data [e|]] r4] eqn:Ed;
    [discriminate|].
  destruct (bufio_Read_prefix _ _ _ _ Ed) as [Hp Hd].
  destruct (readLine f r4) as [[[l m'] e] r5| |]; cbn [bind] in H;
    try discriminate.
  inversion H; subst. cbn [typ bulk set_bulk]. split; [reflexivity|].
  split.
  - rewrite length_string_of_list_ascii, length_app, repeat_length. lia.
  - exists data, (remaining r4). now repeat split.
Qed.

Lemma Read_kinds_witness :
  decoder_kind (request ["GET"; "k"]) = true
  /\ payload (request ["GET"; "k"]) = request ["GET"; "k"].
Proof.
  apply (Read_kinds 20 (NewResp (file_Source (Marshal (request ["GET"; "k"]))))
           {| pending := [];
              src := with_chunks (file_Source (Marshal (request ["GET"; "k"]))) [] |}).
  vm_compute. reflexivity.
Defined.

Lemma Read_array_declared_length_witness :
  typ (Value_array ValueTypArray [Value_zero; Value_zero]) = ValueTypArray
  /\ Z.of_nat (length (array (Value_array ValueTypArray [Value_zero; Value_zero])))
     = 2.
Proof.
  apply (Read_array_declared_length 2 LF b("+-") 10
           (NewResp (file_Source (crlf "*2" ++ b("+-"))))
           {| pending := [];
              src := with_chunks (file_Source (crlf "*2" ++ b("+-"))) [] |}).
  - lia.
  - reflexivity.
  - vm_compute. lia.
  - vm_compute. reflexivity.
Defined.

Lemma Read_bulk_declared_length_witness :
  typ (bulk_string s(b("ab") ++ [NUL; NUL; NUL])) = ValueTypBulkString
  /\ Z.of_nat (String.length (bulk (bulk_string s(b("ab") ++ [NUL; NUL; NUL]))))
     = 5
  /\ exists data rest',
       b("ab") ++ [CR; LF] = data ++ rest'
       /\ (length data <= Z.to_nat 5)%nat
       /\ bulk (bulk_string s(b("ab") ++ [NUL; NUL; NUL]))
          = s(data ++ repeat NUL (Z.to_nat 5 - length data)).
Proof.
  apply (Read_bulk_declared_length 5 LF (b("ab") ++ [CR; LF]) 10
           (NewResp {| chunks := [crlf "$5" ++ b("ab"); [CR; LF]];
                       final := io_EOF |})
           {| pending := []; src := {| chunks := []; final := io_EOF |} |}).
  - lia.
  - reflexivity.
  - vm_compute. lia.
  - vm_compute. reflexivity.
Defined.

(** ** The encoder *)

Lemma Marshal_of_payload (v : Value) : Marshal (payload v) = Marshal v.
Proof.
  induction v as [t s n bk a IH] using Value_ind_nested.
  destruct (String.eqb_spec t ValueTypArray) as [->|Na].
  - rewrite (Marshal_Array (mkValue ValueTypArray s n bk a)) by reflexivity.
    assert (Hp : payload (mkValue ValueTypArray s n bk a)
                 = Value_array ValueTypArray (List.map payload a))
      by reflexivity.
    rewrite Hp, Marshal_Array by reflexivity. unfold Value_array. cbn [array].
    rewrite length_map, List.map_map.
    now rewrite (List.map_ext_Forall _ _ IH).
  - cbn [payload typ bulk str num]. apply String.eqb_neq in Na. rewrite Na.
    destruct (String.eqb_spec t ValueTypBulkString) as [->|Nb]; [reflexivity|].
    destruct (String.eqb_spec t ValueTypSimpleString) as [->|Ns]; [reflexivity|].
    destruct (String.eqb_spec t ValueTypSimpleError) as [->|Ne]; [reflexivity|].
    cbn [orb]. cbv iota.
    destruct (String.eqb_spec t ValueTypInteger) as [->|Ni]; [reflexivity|].
    destruct (String.eqb_spec t ValueTypNull) as [->|Nn]; [reflexivity|].
    apply String.eqb_neq in Nb, Ns, Ne, Nn.
    unfold Value_typ. cbn [Marshal typ]. now rewrite Na, Nb, Ns, Ne, Nn.
Qed.

(** X16. The encoding of a value depends on its kind and on the payload of
    that kind alone: the fields that are no payload of the kind, in the
    value and in the elements of an Array, do not show in the bytes, and
    two values of the same kind and payload have the same encoding. *)
Theorem Marshal_payload (v v' : Value) :
  Marshal (payload v) = Marshal v
  /\ (payload v = payload v' -> Marshal v = Marshal v').
Proof.
  split; [apply Marshal_of_payload|].
  intros E. rewrite <- (Marshal_of_payload v), <- (Marshal_of_payload v').
  now rewrite E.
Qed.

Lemma Marshal_payload_witness :
  Marshal (payload (mkValue ValueTypBulkString "x" 3 "k" [Value_zero]))
  = Marshal (mkValue ValueTypBulkString "x" 3 "k" [Value_zero])
  /\ (payload (mkValue ValueTypBulkString "x" 3 "k" [Value_zero])
      = payload (bulk_string "k") ->
      Marshal (mkValue ValueTypBulkString "x" 3 "k" [Value_zero])
      = Marshal (bulk_string "k")).
Proof.
  apply (Marshal_payload (mkValue ValueTypBulkString "x" 3 "k" [Value_zero])
           (bulk_string "k")).
Defined.

(** ** Termination *)

(** X17. On an input of finitely many bytes every call of [Read]
    terminates: it panics or it returns, never leaving more input than it
    found, and a call that returns a value without an error has consumed
    at least one byte. *)
Theorem Read_terminates (fuel : nat) (r : Reader) :
  (avail r < fuel)%nat ->
  (exists v e r1,
      Read fuel r = Done (v, e) r1
      /\ (avail r1 <= avail r)%nat
      /\ (e = None -> (avail r1 < avail r)%nat))
  \/ (exists msg, Read fuel r = Panic msg).
Proof.
  intros Hf. pose proof (Read_progress fuel r Hf) as H. unfold progress in H.
  destruct (Read fuel r) as [[v [e|]] r1|msg|]; [| | |contradiction].
  - left. exists v, (Some e), r1. repeat split; [exact H|discriminate].
  - left. exists v, None, r1. repeat split; [lia|intros _; exact H].
  - right. now exists msg.
Qed.

Section WorkerTermination.

Variable range_order : list (string * string) -> list (string * string).
Variable ToUpper : string -> string.

(** X18. A connection worker whose connection delivers finitely many bytes
    and is then closed (or fails) comes to an end: it returns, after a read
    that failed, or it panics; it does not read for ever. *)
Theorem handleConnection_terminates (fuel : nat) :
  forall (resp : Reader) (w : World),
    (avail resp < fuel)%nat ->
    (exists r w', handleConnection range_order ToUpper fuel resp w
                  = Done tt (r, w'))
    \/ (exists msg, handleConnection range_order ToUpper fuel resp w = Panic msg).
Proof.
  induction fuel as [|f IH]; intros resp w Hf; [lia|].
  cbn [handleConnection].
  pose proof (Read_progress (S f) resp Hf) as H. unfold progress in H.
  destruct (Read (S f) resp) as [[v [e|]] r1|msg|]; [| | |contradiction].
  - left. now exists r1, w.
  - apply IH. lia.
  - right. now exists msg.
Qed.

End WorkerTermination.

Lemma Read_terminates_witness :
  (exists v e r1,
      Read 6 (NewResp (file_Source (crlf "$0" ++ b("x")))) = Done (v, e) r1
      /\ (avail r1 <= avail (NewResp (file_Source (crlf "$0" ++ b("x")))))%nat
      /\ (e = None ->
          (avail r1 < avail (NewResp (file_Source (crlf "$0" ++ b("x")))))%nat))
  \/ (exists msg,
         Read 6 (NewResp (file_Source (crlf "$0" ++ b("x")))) = Panic msg).
Proof.
  apply (Read_terminates 6 (NewResp (file_Source (crlf "$0" ++ b("x"))))).
  vm_compute. lia.
Defined.

Lemma handleConnection_terminates_witness :
  (exists r w',
      handleConnection (fun l => l) ToUpper_ascii 20
        (NewResp (file_Source (Marshal (request ["PING"])))) World_init
      = Done tt (r, w'))
  \/ (exists msg,
         handleConnection (fun l => l) ToUpper_ascii 20
           (NewResp (file_Source (Marshal (request ["PING"])))) World_init
         = Panic msg).
Proof.
  apply (handleConnection_terminates (fun l => l) ToUpper_ascii 20).
  vm_compute. lia.
Defined.

(** ** One iteration of the connection worker *)

Section WorkerIteration.

Variable range_order : list (string * string) -> list (string * string).
Variable ToUpper : string -> string.

(** What an iteration does to the store and to the log, when the log can
    be written. *)
Lemma handleCommand_effect (value : Value) (w : World) :
  write_error (aof w) = None ->
  store (handleCommand range_order ToUpper value w)
  = (if is_command value
     then invoke range_order (invocation ToUpper value) (store w)
     else store w)
  /\ aof (handleCommand range_order ToUpper value w)
     = (if is_mutating ToUpper value
        then snd (Aof_Write value (aof w))
        else aof w).
Proof.
  intros Hw. unfold handleCommand, is_mutating, is_command, invocation, invoke.
  destruct (String.eqb (typ value) ValueTypArray); [|now split].
  cbn [negb andb]. destruct (array value) as [|v0 args]; [now split|].
  cbn [fst snd].
  destruct (Handlers range_order (ToUpper (bulk v0))) as [handler|] eqn:Hh.
  - destruct (String.eqb (ToUpper (bulk v0)) "SET"
              || String.eqb (ToUpper (bulk v0)) "HSET").
    + unfold World_Aof_Write, Aof_Write, File_Write. rewrite Hw.
      unfold World_handler. cbn [store aof].
      destruct (handler args (store w)) as [result st]. now split.
    + unfold World_handler.
      destruct (handler args (store w)) as [result st]. now split.
  - split; [reflexivity|].
    destruct (String.eqb_spec (ToUpper (bulk v0)) "SET") as [E|_];
      [rewrite E in Hh; discriminate|].
    destruct (String.eqb_spec (ToUpper (bulk v0)) "HSET") as [E|_];
      [rewrite E in Hh; discriminate|].
    reflexivity.
Qed.

(** X19. Every iteration of the worker writes exactly one reply to the
    connection, and the reply has a wire form, so that at least one byte is
    written: whether the request is a command or not, whether its name is
    registered or not, and whether the log could be written or not. *)
Theorem handleCommand_one_reply (value : Value) (w : World) :
  exists reply : Value,
    conn_out (handleCommand range_order ToUpper value w)
    = conn_out w ++ Marshal reply
    /\ encoder_supports reply = true
    /\ Marshal reply <> [].
Proof.
  unfold handleCommand.
  destruct (String.eqb (typ value) ValueTypArray); cbn [negb];
    [|eexists; split; [reflexivity|split; [reflexivity|discriminate]]].
  destruct (array value) as [|v0 args];
    [eexists; split; [reflexivity|split; [reflexivity|discriminate]]|].
  destruct (Handlers range_order (ToUpper (bulk v0))) as [handler|] eqn:Hh;
    [|eexists; split; [reflexivity|split; [reflexivity|discriminate]]].
  destruct (String.eqb (ToUpper (bulk v0)) "SET"
            || String.eqb (ToUpper (bulk v0)) "HSET").
  - unfold World_Aof_Write, Aof_Write, File_Write.
    destruct (write_error (aof w));
      [eexists; split; [reflexivity|split; [reflexivity|discriminate]]|].
    unfold World_handler. cbn [store].
    pose proof (handler_reply_kind range_order _ _ args (store w) Hh) as He.
    destruct (handler args (store w)) as [result st]. exists result.
    split; [reflexivity|]. split; [exact He|].
    now apply encoder_supports_Marshal.
  - unfold World_handler.
    pose proof (handler_reply_kind range_order _ _ args (store w) Hh) as He.
    destruct (handler args (store w)) as [result st]. exists result.
    split; [reflexivity|]. split; [exact He|].
    now apply encoder_supports_Marshal.
Qed.

(** X20. A request that is no Array, an empty Array, or a command whose
    upper-cased name is not registered changes neither the store nor the
    log; the worker answers it with a SimpleError and goes on. *)
Theorem handleCommand_rejected (value : Value) (w : World) :
  is_command value = false
  \/ Handlers range_order (fst (invocation ToUpper value)) = None ->
  store (handleCommand range_order ToUpper value w) = store w
  /\ aof (handleCommand range_order ToUpper value w) = aof w
  /\ exists msg,
       conn_out (handleCommand range_order ToUpper value w)
       = conn_out w ++ Marshal (Value_str ValueTypSimpleError msg)
       /\ (msg = "ERR invalid request, expected array"
           \/ msg = "ERR invalid request, expected array length > 0"
           \/ msg = "ERR unknown command").
Proof.
  unfold handleCommand, is_command, invocation.
  destruct (String.eqb (typ value) ValueTypArray); cbn [negb andb].
  - destruct (array value) as [|v0 args].
    + intros _. repeat split. eexists. split; [reflexivity|tauto].
    + cbn [fst]. intros [H|H]; [discriminate|]. rewrite H.
      repeat split. eexists. split; [reflexivity|tauto].
  - intros _. repeat split. eexists. split; [reflexivity|tauto].
Qed.

End WorkerIteration.

Lemma handleCommand_rejected_witness :
  store (handleCommand (fun l => l) ToUpper_ascii (request ["FOO"]) World_init)
  = store World_init
  /\ aof (handleCommand (fun l => l) ToUpper_ascii (request ["FOO"]) World_init)
     = aof World_init
  /\ exists msg,
       conn_out (handleCommand (fun l => l) ToUpper_ascii (request ["FOO"])
                   World_init)
       = conn_out World_init ++ Marshal (Value_str ValueTypSimpleError msg)
       /\ (msg = "ERR invalid request, expected array"
           \/ msg = "ERR invalid request, expected array length > 0"
           \/ msg = "ERR unknown command").
Proof.
  apply (handleCommand_rejected (fun l => l) ToUpper_ascii).
  right. reflexivity.
Defined.

(** ** Requests that arrive together *)

Lemma Read_one_piece (fuel : nat) (data : bytes) (e : error) :
  data <> [] -> (length data <= bufSize)%nat ->
  Read fuel (NewResp (one_piece data e))
  = Read fuel {| pending := data; src := {| chunks := []; final := e |} |}.
Proof.
  intros Hne Hlen. destruct fuel as [|f]; [reflexivity|].
  destruct data as [|c p]; [contradiction|].
  cbn [Read]. unfold ReadByte, NewResp, one_piece.
  cbn [pending src chunks Source_Read].
  rewrite take_ge, drop_ge by exact Hlen. reflexivity.
Qed.

Lemma concat_Marshal_nil (reqs : list Value) :
  Forall (fun q => decodable q = true) reqs ->
  concat (List.map Marshal reqs) = [] -> reqs = [].
Proof.
  intros Hd Hc. destruct reqs as [|q reqs]; [reflexivity|].
  inversion Hd as [|? ? Hq _]; subst.
  pose proof (Marshal_decodable_pos q Hq) as Hp.
  cbn [List.map concat] in Hc. apply (f_equal (@length ascii)) in Hc.
  rewrite length_app in Hc. simpl in Hc. lia.
Qed.

Section Pipelining.

Variable range_order : list (string * string) -> list (string * string).
Variable ToUpper : string -> string.

Lemma handleConnection_buffered (reqs : list Value) :
  forall (w : World) (fuel : nat) (e : error),
    Forall (fun q => decodable q = true) reqs ->
    (length (concat (List.map Marshal reqs)) <= bufSize)%nat ->
    (length (concat (List.map Marshal reqs)) < fuel)%nat ->
    handleConnection range_order ToUpper fuel
      {| pending := concat (List.map Marshal reqs);
         src := {| chunks := []; final := e |} |} w
    = Done tt
        ({| pending := []; src := {| chunks := []; final := e |} |},
         fold_left (fun w q => handleCommand range_order ToUpper (payload q) w)
           reqs w).
Proof.
  induction reqs as [|q reqs IH]; intros w fuel e Hd Hlen Hfuel;
    (destruct fuel as [|f]; [lia|]).
  - reflexivity.
  - inversion Hd as [|? ? Hq Hreqs]; subst.
    cbn [List.map concat] in *. rewrite length_app in Hlen, Hfuel.
    pose proof (Marshal_decodable_pos q Hq) as Hp.
    cbn [handleConnection fold_left].
    rewrite Read_buffered by (try exact Hq; lia).
    apply IH; [exact Hreqs|lia|lia].
Qed.

(** X21. Requests that arrive together on a connection, in one piece of
    at most 4096 bytes, are handled one after the other in the order of
    arrival: each is decoded to its kind and payload and goes through one
    iteration of the worker, and when the input is used up the worker
    returns. *)
Theorem handleConnection_pipelined
    (reqs : list Value) (w : World) (fuel : nat) (e : error) :
  Forall (fun q => decodable q = true) reqs ->
  (length (concat (List.map Marshal reqs)) <= bufSize)%nat ->
  (length (concat (List.map Marshal reqs)) < fuel)%nat ->
  exists r : Reader,
    handleConnection range_order ToUpper fuel
      (NewResp (one_piece (concat (List.map Marshal reqs)) e)) w
    = Done tt
        (r, fold_left (fun w q => handleCommand range_order ToUpper (payload q) w)
              reqs w)
    /\ avail r = 0%nat.
Proof.
  intros Hd Hlen Hfuel.
  destruct (concat (List.map Marshal reqs)) as [|c p] eqn:Edata.
  - rewrite (concat_Marshal_nil reqs Hd Edata).
    destruct fuel as [|f]; [simpl in Hfuel; lia|].
    eexists. split; reflexivity.
  - destruct fuel as [|f]; [lia|].
    exists {| pending := []; src := {| chunks := []; final := e |} |}.
    split; [|reflexivity].
    rewrite <- (handleConnection_buffered reqs w (S f) e Hd);
      rewrite ?Edata; [|exact Hlen|exact Hfuel].
    cbn [handleConnection]. now rewrite Read_one_piece.
Qed.

End Pipelining.

Lemma handleConnection_pipelined_witness :
  exists r : Reader,
    handleConnection (fun l => l) ToUpper_ascii 60
      (NewResp
         (one_piece
            (concat (List.map Marshal
                       [request ["SET"; "k"; "v"]; request ["GET"; "k"]]))
            io_EOF))
      World_init
    = Done tt
        (r, fold_left
              (fun w q => handleCommand (fun l => l) ToUpper_ascii (payload q) w)
              [request ["SET"; "k"; "v"]; request ["GET"; "k"]] World_init)
    /\ avail r = 0%nat.
Proof.
  apply (handleConnection_pipelined (fun l => l) ToUpper_ascii
           [request ["SET"; "k"; "v"]; request ["GET"; "k"]] World_init 60 io_EOF).
  - repeat constructor.
  - vm_compute. lia.
  - vm_compute. lia.
Defined.

(** ** Replay and durability *)

Lemma payload_Array (q : Value) :
  typ q = ValueTypArray ->
  payload q = Value_array ValueTypArray (List.map payload (array q)).
Proof.
  intros Ht. destruct q as [t s n bk a]. cbn in Ht. subst t. reflexivity.
Qed.

Lemma is_command_payload (q : Value) : is_command (payload q) = is_command q.
Proof.
  unfold is_command. destruct (String.eqb_spec (typ q) ValueTypArray) as [E|N].
  - rewrite (payload_Array q E). cbn [typ array Value_array].
    now destruct (array q).
  - destruct q as [t s n bk a]. cbn [payload typ] in *.
    apply String.eqb_neq in N. rewrite N.
    destruct (String.eqb t ValueTypBulkString); [reflexivity|].
    destruct (_ || _); cbn [typ Value_str]; [now rewrite N|].
    destruct (String.eqb t ValueTypInteger) eqn:Ei; [reflexivity|].
    cbn [typ Value_typ]. now rewrite N.
Qed.

Lemma decodable_payload (q : Value) :
  decodable q = true -> decodable (payload q) = true.
Proof.
  induction q as [t s n bk a IH] using Value_ind_nested. intros Hd.
  destruct (decodable_cases _ Hd) as [(Ht & Ha & ->)|(Ht & ->)];
    [|reflexivity].
  unfold Value_array. cbn [decodable typ array]. cbn [array] in Ha.
  apply forallb_forall. intros x Hx. apply in_map_iff in Hx as (y & <- & Hy).
  rewrite List.Forall_forall in IH. rewrite forallb_forall in Ha. auto.
Qed.

Section Replay.

Variable range_order : list (string * string) -> list (string * string).
Variable ToUpper : string -> string.

Lemma replay_fn_invoke (value : Value) (st : Store) :
  is_command value = true ->
  replay_fn range_order ToUpper value st
  = Done tt (invoke range_order (invocation ToUpper value) st).
Proof.
  unfold is_command, replay_fn, invocation, invoke. intros H.
  apply andb_prop in H as [_ H]. destruct (array value); [discriminate|].
  cbn [fst snd]. now destruct (Handlers range_order _).
Qed.

Lemma Aof_Read_loop_buffered (records : list Value) :
  forall (st : Store) (fuel : nat),
    Forall (fun q => decodable q = true /\ is_command q = true) records ->
    (length (concat (List.map Marshal records)) <= bufSize)%nat ->
    (length (concat (List.map Marshal records)) < fuel)%nat ->
    Aof_Read_loop fuel (replay_fn range_order ToUpper)
      {| pending := concat (List.map Marshal records);
         src := {| chunks := []; final := io_EOF |} |} st
    = Done None
        ({| pending := []; src := {| chunks := []; final := io_EOF |} |},
         run range_order
           (List.map (fun q => invocation ToUpper (payload q)) records) st).
Proof.
  induction records as [|q records IH]; intros st fuel Hd Hlen Hfuel;
    (destruct fuel as [|f]; [lia|]).
  - reflexivity.
  - inversion Hd as [|? ? [Hq Hc] Hrecords]; subst.
    cbn [List.map concat] in *. rewrite length_app in Hlen, Hfuel.
    pose proof (Marshal_decodable_pos q Hq) as Hp.
    cbn [Aof_Read_loop]. rewrite Read_buffered by (try exact Hq; lia).
    rewrite replay_fn_invoke by (now rewrite is_command_payload).
    change (run range_order (?c :: ?cs) st)
      with (run range_order cs (invoke range_order c st)).
    apply IH; [exact Hrecords|lia|lia].
Qed.

(** [Aof.Read] on a log of command frames of at most 4096 bytes in all. *)
Lemma Aof_Read_records
    (records : list Value) (werr : option error) (fuel : nat) :
  Forall (fun q => decodable q = true /\ is_command q = true) records ->
  (length (concat (List.map Marshal records)) <= bufSize)%nat ->
  (length (concat (List.map Marshal records)) < fuel)%nat ->
  Aof_Read fuel (replay_fn range_order ToUpper)
    (NewAof (concat (List.map Marshal records)) werr) Store_init
  = Done None
      ({| file := concat (List.map Marshal records);
          offset := length (concat (List.map Marshal records));
          write_error := werr |},
       run range_order
         (List.map (fun q => invocation ToUpper (payload q)) records) Store_init).
Proof.
  intros Hd Hlen Hfuel. unfold Aof_Read, NewAof. cbn [file write_error].
  destruct (concat (List.map Marshal records)) as [|c p] eqn:Elog.
  - assert (Hr : records = []).
    { apply concat_Marshal_nil; [|exact Elog].
      eapply List.Forall_impl; [|exact Hd]. now intros q [Hq _]. }
    subst records. destruct fuel as [|f]; [simpl in Hfuel; lia|]. reflexivity.
  - destruct fuel as [|f]; [lia|].
    assert (E : Aof_Read_loop (S f) (replay_fn range_order ToUpper)
                  (NewResp (file_Source (c :: p))) Store_init
                = Aof_Read_loop (S f) (replay_fn range_order ToUpper)
                    {| pending := c :: p;
                       src := {| chunks := []; final := io_EOF |} |} Store_init).
    { cbn [Aof_Read_loop].
      change (file_Source (c :: p)) with (one_piece (c :: p) io_EOF).
      now rewrite Read_one_piece. }
    rewrite E, <- Elog.
    rewrite Aof_Read_loop_buffered; rewrite ?Elog; [|exact Hd|exact Hlen|exact Hfuel].
    cbn [src chunks concat length]. now rewrite Nat.sub_0_r.
Qed.

(** X22. A log that holds the encodings of command frames, at most 4096
    bytes in all, is replayed entirely: [main] comes to serve with the
    store that the handler invocations of the records, run in order from
    the empty store, leave, and with the descriptor of the log at its end,
    so that what is written next is appended. *)
Theorem main_replays_log
    (records : list Value) (werr : option error) (fuel : nat) :
  Forall (fun q => decodable q = true /\ is_command q = true) records ->
  (length (concat (List.map Marshal records)) <= bufSize)%nat ->
  (length (concat (List.map Marshal records)) < fuel)%nat ->
  main range_order ToUpper fuel None None
    (concat (List.map Marshal records)) werr
  = Serving
      (run range_order
         (List.map (fun q => invocation ToUpper (payload q)) records) Store_init)
      {| file := concat (List.map Marshal records);
         offset := length (concat (List.map Marshal records));
         write_error := werr |}.
Proof.
  intros Hd Hlen Hfuel. unfold main.
  now rewrite (Aof_Read_records records werr fuel Hd Hlen Hfuel).
Qed.

Lemma invoke_not_mutating (value : Value) (st : Store) :
  is_command value = true ->
  is_mutating ToUpper value = false ->
  invoke range_order (invocation ToUpper value) st = st.
Proof.
  unfold is_mutating. intros Hc H. rewrite Hc in H. cbn [andb] in H.
  apply orb_false_elim in H as [H1 H2]. apply String.eqb_neq in H1, H2.
  unfold invoke.
  generalize dependent (fst (invocation ToUpper value)). intros command H1 H2.
  destruct (Handlers range_order command) as [handler|] eqn:Hh; [|reflexivity].
  by_handler Hh; try contradiction.
  - apply ping_store.
  - apply get_store.
  - apply hget_store.
  - apply hgetall_store.
Qed.

Lemma run_mutating_only (values : list Value) :
  forall st : Store,
    run range_order (List.map (invocation ToUpper) (List.filter is_command values)) st
    = run range_order
        (List.map (invocation ToUpper) (List.filter (is_mutating ToUpper) values))
        st.
Proof.
  induction values as [|v values IH]; intros st; [reflexivity|].
  cbn [List.filter]. destruct (is_command v) eqn:Hc.
  - destruct (is_mutating ToUpper v) eqn:Hm; cbn [List.map].
    + change (run range_order (?c :: ?cs) st)
        with (run range_order cs (invoke range_order c st)).
      apply IH.
    + change (run range_order (?c :: ?cs) st)
        with (run range_order cs (invoke range_order c st)).
      rewrite (invoke_not_mutating v st Hc Hm). apply IH.
  - unfold is_mutating. rewrite Hc. cbn [andb]. apply IH.
Qed.

(** What the worker leaves after a sequence of iterations, when the log
    can be written and its descriptor stands at its end: the store of the
    invocations of the command frames, and the log with the frames of the
    SET and HSET commands appended. *)
Lemma fold_handleCommand_effect (values : list Value) :
  forall w : World,
    write_error (aof w) = None ->
    offset (aof w) = length (file (aof w)) ->
    let w' := fold_left (fun w v => handleCommand range_order ToUpper v w)
                values w in
    store w'
    = run range_order
        (List.map (invocation ToUpper) (List.filter is_command values)) (store w)
    /\ file (aof w')
       = file (aof w)
           ++ concat (List.map Marshal (List.filter (is_mutating ToUpper) values))
    /\ offset (aof w') = length (file (aof w'))
    /\ write_error (aof w') = None.
Proof.
  induction values as [|v values IH]; intros w Hw Ho.
  - cbn. now rewrite app_nil_r.
  - cbn [fold_left List.filter].
    destruct (handleCommand_effect range_order ToUpper v w Hw) as [Hs Ha].
    set (w1 := handleCommand range_order ToUpper v w) in *.
    assert (H1 : write_error (aof w1) = None
                 /\ offset (aof w1) = length (file (aof w1))
                 /\ file (aof w1)
                    = file (aof w)
                        ++ (if is_mutating ToUpper v then Marshal v else [])).
    { rewrite Ha. destruct (is_mutating ToUpper v).
      - destruct (File_Write_appends (Marshal v) (aof w) Hw Ho) as [Hf Hoff].
        unfold Aof_Write. rewrite Hf, Hoff. repeat split.
        unfold File_Write. now rewrite Hw.
      - now rewrite app_nil_r. }
    destruct H1 as (Hw1 & Ho1 & Hf1).
    destruct (IH w1 Hw1 Ho1) as (IHs & IHf & IHo & IHw).
    cbv zeta. split; [|split; [|split]]; try assumption.
    + rewrite IHs, Hs. destruct (is_command v); reflexivity.
    + rewrite IHf, Hf1.
      destruct (is_mutating ToUpper v); cbn [List.map concat];
        now rewrite <- app_assoc.
Qed.

Lemma length_mutating_log (reqs : list Value) :
  (length (concat (List.map Marshal
                     (List.filter (is_mutating ToUpper) (List.map payload reqs))))
   <= length (concat (List.map Marshal reqs)))%nat.
Proof.
  induction reqs as [|q reqs IH]; [reflexivity|].
  cbn [List.map List.filter concat]. rewrite length_app.
  destruct (is_mutating ToUpper (payload q)); [|lia].
  cbn [List.map concat]. rewrite length_app, Marshal_of_payload. lia.
Qed.

Lemma fold_left_payload (g : World -> Value -> World) (reqs : list Value) :
  forall w : World,
    fold_left (fun w q => g w (payload q)) reqs w
    = fold_left g (List.map payload reqs) w.
Proof.
  induction reqs as [|q reqs IH]; intros w; [reflexivity|].
  cbn [List.map fold_left]. apply IH.
Qed.

(** X23. Durability for requests built from BulkStrings and Arrays of such
    values only: when a server started on an empty log has served such
    requests, which arrived together in one piece of at most 4096 bytes,
    and the log could be written, a restart on the log it has written
    rebuilds the very store it had: the frames of the SET and HSET commands
    are in the log, in order, and no other command changed the store. *)
Theorem restart_rebuilds_store (reqs : list Value) (e : error) (fuel : nat) :
  Forall (fun q => decodable q = true) reqs ->
  (length (concat (List.map Marshal reqs)) <= bufSize)%nat ->
  (length (concat (List.map Marshal reqs)) < fuel)%nat ->
  exists (r : Reader) (w : World),
    handleConnection range_order ToUpper fuel
      (NewResp (one_piece (concat (List.map Marshal reqs)) e)) World_init
    = Done tt (r, w)
    /\ file (aof w)
       = concat (List.map Marshal
                   (List.filter (is_mutating ToUpper) (List.map payload reqs)))
    /\ main range_order ToUpper fuel None None (file (aof w)) None
       = Serving (store w) (aof w).
Proof.
  intros Hd Hlen Hfuel.
  assert (Hserve : exists r,
             handleConnection range_order ToUpper fuel
               (NewResp (one_piece (concat (List.map Marshal reqs)) e)) World_init
             = Done tt
                 (r, fold_left
                       (fun w q => handleCommand range_order ToUpper (payload q) w)
                       reqs World_init)).
  { destruct (concat (List.map Marshal reqs)) as [|c p] eqn:Edata.
    - rewrite (concat_Marshal_nil reqs Hd Edata).
      destruct fuel as [|f]; [simpl in Hfuel; lia|]. eexists. reflexivity.
    - destruct fuel as [|f]; [lia|]. eexists.
      rewrite <- (handleConnection_buffered range_order ToUpper reqs World_init
                    (S f) e Hd);
        rewrite ?Edata; [|exact Hlen|exact Hfuel].
      cbn [handleConnection]. now rewrite Read_one_piece. }
  destruct Hserve as (r & E).
  eexists r, _. split; [exact E|].
  set (f := fun w v => handleCommand range_order ToUpper v w).
  assert (Hfold : fold_left
                    (fun w q => handleCommand range_order ToUpper (payload q) w)
                    reqs World_init
                  = fold_left f (List.map payload reqs) World_init).
  { exact (fold_left_payload f reqs World_init). }
  rewrite Hfold.
  destruct (fold_handleCommand_effect (List.map payload reqs) World_init
              eq_refl eq_refl) as (Hs & Hf & Ho & Hw).
  fold f in Hs, Hf, Ho, Hw.
  set (w := fold_left f (List.map payload reqs) World_init) in *.
  change (file (aof World_init)) with (@nil ascii) in Hf.
  change (store World_init) with Store_init in Hs. cbn [app] in Hf.
  set (records := List.filter (is_mutating ToUpper) (List.map payload reqs)) in *.
  split; [exact Hf|].
  pose proof (length_mutating_log reqs) as Hll. fold records in Hll.
  assert (Hrec : Forall (fun q => decodable q = true /\ is_command q = true)
                   records).
  { apply List.Forall_forall. intros x Hx. subst records.
    apply filter_In in Hx as [Hx Hm]. apply in_map_iff in Hx as (q & <- & Hq).
    rewrite List.Forall_forall in Hd. split.
    - apply decodable_payload. now apply Hd.
    - unfold is_mutating in Hm. now apply andb_prop in Hm as [Hm _]. }
  rewrite Hf. unfold main.
  rewrite Aof_Read_records by (try exact Hrec; lia).
  f_equal.
  - rewrite Hs, run_mutating_only. fold records. f_equal.
    apply List.map_ext_in. intros x Hx. subst records.
    apply filter_In in Hx as [Hx _]. apply in_map_iff in Hx as (q & <- & _).
    now rewrite payload_idem.
  - destruct (aof w) as [fl off we]. cbn [file offset write_error] in *.
    now subst.
Qed.

End Replay.

Lemma main_replays_log_witness :
  main (fun l => l) ToUpper_ascii 60 None None
    (concat (List.map Marshal [request ["set"; "k"; "v"]])) None
  = Serving
      (run (fun l => l)
         (List.map (fun q => invocation ToUpper_ascii (payload q))
            [request ["set"; "k"; "v"]]) Store_init)
      {| file := concat (List.map Marshal [request ["set"; "k"; "v"]]);
         offset := length (concat (List.map Marshal [request ["set"; "k"; "v"]]));
         write_error := None |}.
Proof.
  apply (main_replays_log (fun l => l) ToUpper_ascii
           [request ["set"; "k"; "v"]] None 60).
  - repeat constructor.
  - vm_compute. lia.
  - vm_compute. lia.
Defined.

Lemma restart_rebuilds_store_witness :
  exists (r : Reader) (w : World),
    handleConnection (fun l => l) ToUpper_ascii 80
      (NewResp
         (one_piece
            (concat (List.map Marshal
                       [request ["set"; "k"; "v"]; request ["PING"];
                        request ["HSET"; "h"; "f"; "x"]]))
            io_EOF))
      World_init
    = Done tt (r, w)
    /\ file (aof w)
       = concat (List.map Marshal
                   (List.filter (is_mutating ToUpper_ascii)
                      (List.map payload
                         [request ["set"; "k"; "v"]; request ["PING"];
                          request ["HSET"; "h"; "f"; "x"]])))
    /\ main (fun l => l) ToUpper_ascii 80 None None (file (aof w)) None
       = Serving (store w) (aof w).
Proof.
  apply (restart_rebuilds_store (fun l => l) ToUpper_ascii
           [request ["set"; "k"; "v"]; request ["PING"];
            request ["HSET"; "h"; "f"; "x"]] io_EOF 80).
  - repeat constructor.
  - vm_compute. lia.
  - vm_compute. lia.
Defined.

(** ** Logs that do not end with a complete command frame *)

Section DamagedLogs.

Variable range_order : list (string * string) -> list (string * string).
Variable ToUpper : string -> string.

Lemma Aof_Read_loop_records (records : list Value) :
  forall (st : Store) (f : nat) (rest : bytes) (s : Source),
    Forall (fun q => decodable q = true /\ is_command q = true) records ->
    (length (concat (List.map Marshal records)) <= bufSize)%nat ->
    (length (concat (List.map Marshal records)) < f)%nat ->
    Aof_Read_loop (length records + f) (replay_fn range_order ToUpper)
      {| pending := concat (List.map Marshal records) ++ rest; src := s |} st
    = Aof_Read_loop f (replay_fn range_order ToUpper)
        {| pending := rest; src := s |}
        (run range_order
           (List.map (fun q => invocation ToUpper (payload q)) records) st).
Proof.
  induction records as [|q records IH]; intros st f rest s Hd Hlen Hf;
    [reflexivity|].
  inversion Hd as [|? ? [Hq Hc] Hrecords]; subst.
  cbn [List.map concat] in *. rewrite length_app in Hlen, Hf.
  cbn [length Nat.add Aof_Read_loop]. rewrite <- app_assoc.
  rewrite Read_buffered by (try exact Hq; lia).
  rewrite replay_fn_invoke by (now rewrite is_command_payload).
  change (run range_order (?c :: ?cs) st)
    with (run range_order cs (invoke range_order c st)).
  apply IH; [exact Hrecords|lia|lia].
Qed.

Lemma Aof_Read_loop_one_piece (fuel : nat) (data : bytes) (st : Store) :
  data <> [] -> (length data <= bufSize)%nat ->
  Aof_Read_loop fuel (replay_fn range_order ToUpper)
    (NewResp (file_Source data)) st
  = Aof_Read_loop fuel (replay_fn range_order ToUpper)
      {| pending := data; src := {| chunks := []; final := io_EOF |} |} st.
Proof.
  intros Hne Hlen. destruct fuel as [|f]; [reflexivity|].
  cbn [Aof_Read_loop]. change (file_Source data) with (one_piece data io_EOF).
  now rewrite Read_one_piece.
Qed.

(** X24. A log of at most 4096 bytes that is cut off after its last
    complete record is accepted without a word: when the log holds the
    encodings of command frames, built from BulkStrings and Arrays, and
    then a tail on which [Read] ends with [io.EOF], as in the middle of a
    frame, [Aof.Read] returns a nil error, and [main] serves with the store
    of the complete records. *)
Theorem truncated_log_is_accepted
    (records : list Value) (tail : bytes) (f : nat) (werr : option error)
    (v : Value) (r' : Reader) :
  Forall (fun q => decodable q = true /\ is_command q = true) records ->
  tail <> [] ->
  (length (concat (List.map Marshal records) ++ tail) <= bufSize)%nat ->
  (length (concat (List.map Marshal records)) < f)%nat ->
  Read f {| pending := tail; src := {| chunks := []; final := io_EOF |} |}
  = Done (v, Some io_EOF) r' ->
  exists a : Aof,
    Aof_Read (length records + f) (replay_fn range_order ToUpper)
      (NewAof (concat (List.map Marshal records) ++ tail) werr) Store_init
    = Done None
        (a, run range_order
              (List.map (fun q => invocation ToUpper (payload q)) records)
              Store_init)
    /\ main range_order ToUpper (length records + f) None None
         (concat (List.map Marshal records) ++ tail) werr
       = Serving
           (run range_order
              (List.map (fun q => invocation ToUpper (payload q)) records)
              Store_init) a
    /\ file a = concat (List.map Marshal records) ++ tail.
Proof.
  intros Hd Ht Hlen Hf Htail. unfold main, Aof_Read, NewAof. cbn [file].
  rewrite Aof_Read_loop_one_piece;
    [|intros E; apply app_eq_nil in E as [_ E]; contradiction|exact Hlen].
  rewrite length_app in Hlen.
  rewrite Aof_Read_loop_records by (try exact Hd; lia).
  destruct f as [|f']; [discriminate|].
  cbn [Aof_Read_loop]. rewrite Htail. cbn [error_eqb].
  eexists. split; [|split]; reflexivity.
Qed.

(** X25. In a log of at most 4096 bytes, a record that is no command
    frame, a BulkString or an empty Array, coming after command frames
    built from BulkStrings and Arrays, stops the start of the server with a
    panic: the function that [main] replays with indexes the first element
    of the Array without the check that the connection worker makes. *)
Theorem replay_panics_on_non_command
    (records : list Value) (bad : Value) (rest : bytes) (f : nat)
    (werr : option error) :
  Forall (fun q => decodable q = true /\ is_command q = true) records ->
  decodable bad = true -> is_command bad = false ->
  (length (concat (List.map Marshal records) ++ Marshal bad ++ rest)
   <= bufSize)%nat ->
  (length (concat (List.map Marshal records) ++ Marshal bad) < f)%nat ->
  main range_order ToUpper (length records + f) None None
    (concat (List.map Marshal records) ++ Marshal bad ++ rest) werr
  = Crashed "index out of range [0] with length 0".
Proof.
  intros Hd Hb Hc Hlen Hf. unfold main, Aof_Read, NewAof. cbn [file].
  pose proof (Marshal_decodable_pos bad Hb) as Hp.
  rewrite Aof_Read_loop_one_piece;
    [|intros E; apply (f_equal (@length ascii)) in E;
      rewrite !length_app in E; simpl in E; lia|exact Hlen].
  rewrite !length_app in Hlen. rewrite length_app in Hf.
  rewrite Aof_Read_loop_records by (try exact Hd; lia).
  destruct f as [|f']; [lia|].
  cbn [Aof_Read_loop]. rewrite Read_buffered by (try exact Hb; lia).
  assert (Ha : array (payload bad) = []).
  { rewrite <- is_command_payload in Hc. unfold is_command in Hc.
    destruct (decodable_cases bad Hb) as [(Ht & _ & Hpay)|(Ht & Hpay)];
      rewrite Hpay in *; cbn [typ array Value_array Value_bulk] in *.
    - change (String.eqb ValueTypArray ValueTypArray) with true in Hc.
      cbn [andb] in Hc. now destruct (List.map payload (array bad)).
    - reflexivity. }
  unfold replay_fn. rewrite Ha. reflexivity.
Qed.

End DamagedLogs.

Lemma truncated_log_is_accepted_witness :
  exists a : Aof,
    Aof_Read (length [request ["SET"; "k"; "v"]] + 40)
      (replay_fn (fun l => l) ToUpper_ascii)
      (NewAof (concat (List.map Marshal [request ["SET"; "k"; "v"]])
                 ++ (crlf "*3" ++ crlf "$3" ++ crlf "SET")) None) Store_init
    = Done None
        (a, run (fun l => l)
              (List.map (fun q => invocation ToUpper_ascii (payload q))
                 [request ["SET"; "k"; "v"]])
              Store_init)
    /\ main (fun l => l) ToUpper_ascii
         (length [request ["SET"; "k"; "v"]] + 40) None None
         (concat (List.map Marshal [request ["SET"; "k"; "v"]])
            ++ (crlf "*3" ++ crlf "$3" ++ crlf "SET")) None
       = Serving
           (run (fun l => l)
              (List.map (fun q => invocation ToUpper_ascii (payload q))
                 [request ["SET"; "k"; "v"]])
              Store_init) a
    /\ file a
       = concat (List.map Marshal [request ["SET"; "k"; "v"]])
           ++ (crlf "*3" ++ crlf "$3" ++ crlf "SET").
Proof.
  apply (truncated_log_is_accepted (fun l => l) ToUpper_ascii
           [request ["SET"; "k"; "v"]] (crlf "*3" ++ crlf "$3" ++ crlf "SET")
           40 None
           (Value_array ValueTypArray [bulk_string "SET"])
           {| pending := []; src := {| chunks := []; final := io_EOF |} |}).
  - repeat constructor.
  - discriminate.
  - vm_compute. lia.
  - vm_compute. lia.
  - vm_compute. reflexivity.
Defined.

Lemma replay_panics_on_non_command_witness :
  main (fun l => l) ToUpper_ascii
    (length [request ["SET"; "k"; "v"]] + 40) None None
    (concat (List.map Marshal [request ["SET"; "k"; "v"]])
       ++ Marshal (request []) ++ Marshal (request ["SET"; "k2"; "v2"])) None
  = Crashed "index out of range [0] with length 0".
Proof.
  apply (replay_panics_on_non_command (fun l => l) ToUpper_ascii
           [request ["SET"; "k"; "v"]] (request [])
           (Marshal (request ["SET"; "k2"; "v2"])) 40 None).
  - repeat constructor.
  - reflexivity.
  - reflexivity.
  - vm_compute. lia.
  - vm_compute. lia.
Defined.

(** ** Unambiguous encodings *)

(** X26. The encoding determines the value: two values built from
    BulkString and Array only, with encodings of at most 4096 bytes, that
    are encoded to the same bytes have the same kind and payload. *)
Theorem Marshal_injective (v v' : Value) :
  decodable v = true -> decodable v' = true ->
  (length (Marshal v) <= bufSize)%nat ->
  Marshal v = Marshal v' ->
  payload v = payload v'.
Proof.
  intros Hd Hd' Hlen E.
  pose proof (Read_buffered v Hd Hlen (S (length (Marshal v))) []
                {| chunks := []; final := io_EOF |} ltac:(lia)) as H.
  rewrite E in Hlen.
  pose proof (Read_buffered v' Hd' Hlen (S (length (Marshal v'))) []
                {| chunks := []; final := io_EOF |} ltac:(lia)) as H'.
  rewrite E, H' in H. now inversion H.
Qed.

Lemma Marshal_injective_witness :
  payload (mkValue ValueTypBulkString "ignored" 7 "k" [])
  = payload (bulk_string "k").
Proof.
  apply (Marshal_injective (mkValue ValueTypBulkString "ignored" 7 "k" [])
           (bulk_string "k")).
  - reflexivity.
  - reflexivity.
  - vm_compute. lia.
  - reflexivity.
Defined.
